(** * libpriqueue.c: a comparator-ordered queue on a singly linked list

    A shallow embedding of [src/libpriqueue.c].  The C heap that holds the
    list nodes is a finite map from addresses to nodes; every function of
    the source is a function on the queue header and that heap.  A result
    of [None] stands for undefined behaviour of the C program: a load or a
    store through [NULL] or a dangling pointer, a [free] of an address that
    is not allocated, or a signed overflow of an [int]. *)

From stdpp Require Import gmap list fin_maps sorting.
From Stdlib Require Import ZArith Lia.

Local Open Scope Z_scope.

(** ** Data model *)

(** Pointers ([void *] payloads and node addresses alike) are integers;
    the null pointer is [0]. *)
Abbreviation pointer := Z (only parsing).

Definition NULL : pointer := 0.

(** The C [int]: 32 bits, two's complement.  Arithmetic leaving the range
    is undefined behaviour. *)
Definition INT_MAX : Z := 2147483647.
Definition INT_MIN : Z := -2147483648.

Definition int_checked (z : Z) : option Z :=
  if bool_decide (INT_MIN ≤ z ≤ INT_MAX) then Some z else None.

(** Modelled from the spec: [priqueue_node_t], declared in libpriqueue.h,
    which is not among the sources.  It is the Entry of the specification,
    with the two fields the source reads and writes: [content], the opaque
    payload reference, and [next], the link to the following node. *)
Record priqueue_node_t : Type := mknode {
  content : pointer;
  next : pointer
}.

(** Modelled from the spec: [priqueue_t], declared in libpriqueue.h, which
    is not among the sources.  It is the OrderedQueue of the specification:
    [size], the head of the chain ([root] in the source) and [comparer].
    [size] is an [int], the type [priqueue_size] returns it at.  The
    comparer reads caller-owned data that the queue never writes, so it is
    a function of the two payload pointers. *)
Record priqueue_t : Type := mkqueue {
  size : Z;
  root : pointer;
  comparer : pointer → pointer → Z
}.

Definition set_size (q : priqueue_t) (s : Z) : priqueue_t :=
  mkqueue s (root q) (comparer q).

Definition set_root (q : priqueue_t) (r : pointer) : priqueue_t :=
  mkqueue (size q) r (comparer q).

(** The part of the C heap that holds list nodes. *)
Abbreviation heap := (gmap Z priqueue_node_t) (only parsing).

(** ** Memory primitives *)

(** [p->content] / [p->next] as an rvalue. *)
Definition load (h : heap) (p : pointer) : option priqueue_node_t :=
  if bool_decide (p = NULL) then None else h !! p.

(** [p->content = v]. *)
Definition store_content (h : heap) (p : pointer) (v : pointer) : option heap :=
  n ← load h p; Some (<[p := mknode v (next n)]> h).

(** [p->next = v]. *)
Definition store_next (h : heap) (p : pointer) (v : pointer) : option heap :=
  n ← load h p; Some (<[p := mknode (content n) v]> h).

(** [free(p)]; [free(NULL)] is a no-op in C. *)
Definition free (h : heap) (p : pointer) : option heap :=
  if bool_decide (p = NULL) then Some h
  else match h !! p with
       | Some _ => Some (delete p h)
       | None => None
       end.

(** A concrete allocator: the least address that is neither null nor in
    use. *)
Definition bump_alloc (h : heap) : pointer := fresh ({[NULL]} ∪ dom h).

(** ** The functions of libpriqueue.c *)

(** [priqueue_init] (lines 21-26). *)
Definition priqueue_init (comparer : pointer → pointer → Z) : priqueue_t :=
  mkqueue 0 NULL comparer.

(** [priqueue_peek] (lines 98-104). *)
Definition priqueue_peek (q : priqueue_t) (h : heap) : option pointer :=
  if bool_decide (size q = 0) then Some NULL
  else n ← load h (root q); Some (content n).

(** [priqueue_poll] (lines 115-127). *)
Definition priqueue_poll (q : priqueue_t) (h : heap)
  : option (pointer * priqueue_t * heap) :=
  if bool_decide (size q = 0) then Some (NULL, q, h)
  else
    let r := root q in
    n ← load h r;
    let r_content := content n in
    let q := set_root q (next n) in
    h ← free h r;
    s ← int_checked (size q - 1);
    Some (r_content, set_size q s, h).

(** The [for] loop of [priqueue_at] and [priqueue_remove_at]: [n]
    iterations of [last = now; now = last->next]. *)
Fixpoint walk (n : nat) (h : heap) (now last : pointer) : option (pointer * pointer) :=
  match n with
  | O => Some (now, last)
  | S n => nd ← load h now; walk n h (next nd) now
  end.

(** [priqueue_at] (lines 139-150).  The loop runs [index] times when
    [index] is positive and not at all otherwise. *)
Definition priqueue_at (q : priqueue_t) (index : Z) (h : heap) : option pointer :=
  if bool_decide (index >= size q) then Some NULL
  else
    '(now, _) ← walk (Z.to_nat index) h (root q) NULL;
    n ← load h now;
    Some (content n).

(** The loop of [priqueue_remove] (lines 167-183); [n] is the number of
    iterations left, [q->size - i], since the loop does not write
    [q->size]. *)
Fixpoint remove_loop (n : nat) (q : priqueue_t) (ptr : pointer) (h : heap)
    (now last : pointer) (counter : Z) : option (Z * priqueue_t * heap) :=
  match n with
  | O =>
      s ← int_checked (size q - counter);
      Some (counter, set_size q s, h)
  | S n =>
      nd ← load h now;
      if bool_decide (content nd = ptr) then
        '(q, h) ← (if bool_decide (last = NULL)
                   then Some (set_root q (next nd), h)
                   else h ← store_next h last (next nd); Some (q, h));
        let r := now in
        nd ← load h now;
        let now := next nd in
        h ← free h r;
        counter ← int_checked (counter + 1);
        remove_loop n q ptr h now last counter
      else
        let last := now in
        nd ← load h last;
        remove_loop n q ptr h (next nd) last counter
  end.

(** [priqueue_remove] (lines 162-187). *)
Definition priqueue_remove (q : priqueue_t) (ptr : pointer) (h : heap)
  : option (Z * priqueue_t * heap) :=
  remove_loop (Z.to_nat (size q)) q ptr h (root q) NULL 0.

(** [priqueue_remove_at] (lines 199-218). *)
Definition priqueue_remove_at (q : priqueue_t) (index : Z) (h : heap)
  : option (pointer * priqueue_t * heap) :=
  if bool_decide (index >= size q) then Some (NULL, q, h)
  else
    '(now, last) ← walk (Z.to_nat index) h (root q) NULL;
    nd ← load h now;
    let r_content := content nd in
    nd ← load h now;
    h ← store_next h last (next nd);
    h ← free h now;
    s ← int_checked (size q - 1);
    Some (r_content, set_size q s, h).

(** [priqueue_size] (lines 227-230). *)
Definition priqueue_size (q : priqueue_t) : Z := size q.

(** The [while] loop of [priqueue_destroy] (lines 241-246).  The guard
    [now != NULL] gives no bound by itself, but every iteration frees a
    node, so the loop is over (or has read a freed node) after as many
    iterations as the heap has nodes; [n] bounds the number of guard tests
    and one more than the number of nodes is always enough
    ([destroy_loop_fuel]). *)
Fixpoint destroy_loop (n : nat) (h : heap) (now : pointer) : option heap :=
  match n with
  | O => None
  | S n =>
      if bool_decide (now ≠ NULL) then
        let r := now in
        nd ← load h now;
        let now := next nd in
        h ← free h r;
        destroy_loop n h now
      else Some h
  end.

(** [priqueue_destroy] (lines 238-247).  The header is not written. *)
Definition priqueue_destroy (q : priqueue_t) (h : heap) : option heap :=
  destroy_loop (S (base.size h)) h (root q).

Section Offer.

(** [malloc]: the allocator, a function of the heap in use.  The results
    below assume of it only that the address it hands out is neither null
    nor in use; allocation failure is outside the model. *)
Variable malloc : heap → pointer.

(** The [while] loop of [priqueue_offer] (lines 55-79); [n] is the
    number of iterations the guard [counter < q->size] still admits. *)
Fixpoint offer_loop (n : nat) (q : priqueue_t) (node : pointer) (h : heap)
    (counter : Z) (now last : pointer) : option (Z * priqueue_t * heap) :=
  match n with
  | O =>
      h ← store_next h last node;
      counter ← int_checked (counter + 1);
      s ← int_checked (size q + 1);
      Some (counter, set_size q s, h)
  | S n =>
      a ← load h now;
      b ← load h node;
      let result := comparer q (content a) (content b) in
      if bool_decide (result > 0) then
        '(q, h) ← (if bool_decide (last = NULL)
                   then h ← store_next h node now;
                        Some (set_root q node, h)
                   else h ← store_next h last node;
                        h ← store_next h node now;
                        Some (q, h));
        s ← int_checked (size q + 1);
        Some (counter, set_size q s, h)
      else
        let last := now in
        nd ← load h last;
        counter ← int_checked (counter + 1);
        offer_loop n q node h counter (next nd) last
  end.

(** [priqueue_offer] (lines 36-87). *)
Definition priqueue_offer (q : priqueue_t) (ptr : pointer) (h : heap)
  : option (Z * priqueue_t * heap) :=
  let node := malloc h in
  let h := <[node := mknode NULL NULL]> h in
  h ← store_content h node ptr;
  h ← store_next h node NULL;
  if bool_decide (root q = NULL) then
    s ← int_checked (size q + 1);
    Some (0, set_size (set_root q node) s, h)
  else
    offer_loop (Z.to_nat (size q)) q node h 0 (root q) NULL.

End Offer.

(** ** Sequences of calls *)

(** The calls that change a queue. *)
Inductive op : Type :=
  | Offer (ptr : pointer)
  | Poll
  | Remove (ptr : pointer)
  | RemoveAt (index : Z).

Section Calls.

Variable malloc : heap → pointer.

(** One call, keeping the new header and heap. *)
Definition step (o : op) (q : priqueue_t) (h : heap)
  : option (priqueue_t * heap) :=
  match o with
  | Offer ptr => r ← priqueue_offer malloc q ptr h; Some (r.1.2, r.2)
  | Poll => r ← priqueue_poll q h; Some (r.1.2, r.2)
  | Remove ptr => r ← priqueue_remove q ptr h; Some (r.1.2, r.2)
  | RemoveAt index => r ← priqueue_remove_at q index h; Some (r.1.2, r.2)
  end.

(** The states a program reaches from [priqueue_init] by calls that
    return. *)
Inductive reachable (cmp : pointer → pointer → Z)
  : priqueue_t → heap → Prop :=
  | reachable_init (h : heap) : reachable cmp (priqueue_init cmp) h
  | reachable_step (o : op) (q q' : priqueue_t) (h h' : heap) :
      reachable cmp q h → step o q h = Some (q', h') → reachable cmp q' h'.

(** Offering the items of a list, first to last. *)
Fixpoint offer_all (items : list Z) (q : priqueue_t) (h : heap)
  : option (priqueue_t * heap) :=
  match items with
  | [] => Some (q, h)
  | x :: items =>
      r ← priqueue_offer malloc q x h; offer_all items r.1.2 r.2
  end.

End Calls.

Section Runs.

Variable malloc : heap → pointer.

(** A sequence of calls, first to last; [None] as soon as one of them does
    not return. *)
Fixpoint steps (os : list op) (q : priqueue_t) (h : heap)
  : option (priqueue_t * heap) :=
  match os with
  | [] => Some (q, h)
  | o :: os => r ← step malloc o q h; steps os r.1 r.2
  end.

End Runs.

(** Polling [n] times, collecting what the calls return. *)
Fixpoint poll_n (n : nat) (q : priqueue_t) (h : heap)
  : option (list Z * priqueue_t * heap) :=
  match n with
  | O => Some ([], q, h)
  | S n =>
      r ← priqueue_poll q h;
      r' ← poll_n n r.1.2 r.2;
      Some (r.1.1 :: r'.1.1, r'.1.2, r'.2)
  end.

(** ** Representation of the chain

    A chain is described by the list of its cells, head first; a cell is
    the address of a node paired with the payload the node holds. *)

Abbreviation cell := (Z * Z)%type (only parsing).

(** The address a chain (or a chain segment ending at [e]) starts at. *)
Definition hd_addr (ns : list cell) (e : pointer) : pointer :=
  match ns with
  | [] => e
  | n :: _ => n.1
  end.

(** The address of the last cell, [NULL] for no cell: the value of the
    variable [last] of the loops. *)
Definition last_addr (ns : list cell) : pointer :=
  from_option fst NULL (last ns).

(** Every cell of [ns] is a node of [h] that links to the next cell, the
    last one to [e]. *)
Fixpoint cells (h : heap) (ns : list cell) (e : pointer) : Prop :=
  match ns with
  | [] => True
  | n :: ns' =>
      n.1 ≠ NULL ∧ h !! n.1 = Some (mknode n.2 (hd_addr ns' e)) ∧ cells h ns' e
  end.

(** [p] heads a null-terminated chain with cells [ns]. *)
Definition chain (h : heap) (p : pointer) (ns : list cell) : Prop :=
  p = hd_addr ns NULL ∧ cells h ns NULL.

(** The queue header [q] describes the chain [ns] of the heap [h]: [root]
    heads it and [size], an [int], counts it. *)
Definition wf (q : priqueue_t) (h : heap) (ns : list cell) : Prop :=
  chain h (root q) ns ∧ size q = Z.of_nat (length ns) ∧ size q ≤ INT_MAX.

(** The queue holds the payloads [l], in chain order. *)
Definition repr (q : priqueue_t) (h : heap) (l : list Z) : Prop :=
  ∃ ns, wf q h ns ∧ l = ns.*2.

(** The heap [h] is the heap [h0] with the nodes of the chain [ns] laid
    over addresses that [h0] does not use: everything outside the chain is
    as in [h0]. *)
Definition owns (h0 h : heap) (ns : list cell) : Prop :=
  (∀ a, a ∈ ns.*1 → h0 !! a = None) ∧ (∀ b, b ∉ ns.*1 → h !! b = h0 !! b).

(** ** The order of a comparer *)

(** [a] may precede [b]. *)
Definition cle (cmp : pointer → pointer → Z) (a b : pointer) : Prop :=
  cmp a b ≤ 0.

(** What the ordering results need of a comparer: an occupant that is
    strictly greater than an item may follow it, and "may precede" is
    transitive. *)
Record consistent (cmp : pointer → pointer → Z) : Prop := {
  cmp_gt_le : ∀ a b, cmp a b > 0 → cmp b a ≤ 0;
  cmp_le_trans : ∀ a b c, cmp a b ≤ 0 → cmp b c ≤ 0 → cmp a c ≤ 0
}.

(** The position [priqueue_offer] scans to: the index of the first
    payload that compares strictly greater than [item], the length when
    there is none. *)
Fixpoint insert_pos (cmp : pointer → pointer → Z) (item : pointer)
    (l : list Z) : nat :=
  match l with
  | [] => O
  | c :: l' =>
      if bool_decide (cmp c item > 0) then O else S (insert_pos cmp item l')
  end.

(** What [priqueue_offer] returns when it scans to position [k] of a
    chain of [n] cells: the position, except that the append path behind
    a non-empty chain counts once more (line 82). *)
Definition offer_ret (k n : nat) : Z :=
  if decide (n = O ∨ (k < n)%nat) then Z.of_nat k else Z.of_nat n + 1.

(** The queue header with another comparer. *)
Definition with_comparer (cmp : pointer → pointer → Z) (q : priqueue_t)
  : priqueue_t :=
  mkqueue (size q) (root q) cmp.

(** ** Concrete queues *)

(** An ascending comparer: the payloads are compared as integers. *)
Definition cmp_int (a b : pointer) : Z := a - b.

(** The chain [a, b, a, c] with [a = 1], [b = 2], [c = 3]. *)
Definition h_abac : heap :=
  <[10 := mknode 1 20]> (<[20 := mknode 2 30]>
    (<[30 := mknode 1 40]> (<[40 := mknode 3 NULL]> ∅))).

Definition q_abac : priqueue_t := mkqueue 4 10 cmp_int.

(** The sorted chain [1, 2, 3]. *)
Definition h_123 : heap :=
  <[10 := mknode 1 20]> (<[20 := mknode 2 30]> (<[30 := mknode 3 NULL]> ∅)).

Definition q_123 : priqueue_t := mkqueue 3 10 cmp_int.

(** ** Facts about the model *)

(** Runs the continuation of a memory operation that has returned. *)
Ltac run := cbn [mbind option_bind content next].

Lemma bump_alloc_fresh (h : heap) : bump_alloc h ≠ NULL ∧ h !! bump_alloc h = None.
Proof.
  pose proof (is_fresh ({[NULL]} ∪ dom h)) as Hf.
  fold (bump_alloc h) in Hf.
  split.
  - intros E. apply Hf. rewrite E. set_solver.
  - apply not_elem_of_dom. set_solver.
Qed.

Lemma insert_pos_le (cmp : pointer → pointer → Z) (item : pointer) (l : list Z) :
  (insert_pos cmp item l ≤ length l)%nat.
Proof.
  induction l as [|c l IH]; simpl; [lia|]. case_bool_decide; simpl; lia.
Qed.

(** ** Facts about chains *)

Lemma hd_addr_app (xs ys : list cell) (e : pointer) :
  hd_addr (xs ++ ys) e = hd_addr xs (hd_addr ys e).
Proof. by destruct xs. Qed.

Lemma last_addr_snoc (xs : list cell) (n : cell) : last_addr (xs ++ [n]) = n.1.
Proof. unfold last_addr. by rewrite last_snoc. Qed.

Lemma cells_app (h : heap) (xs ys : list cell) (e : pointer) :
  cells h (xs ++ ys) e ↔ cells h xs (hd_addr ys e) ∧ cells h ys e.
Proof.
  induction xs as [|x xs IH]; simpl.
  - tauto.
  - rewrite IH, hd_addr_app. tauto.
Qed.

Lemma cells_in_heap (h : heap) (ns : list cell) (e a : pointer) :
  cells h ns e → a ∈ ns.*1 → a ≠ NULL ∧ is_Some (h !! a).
Proof.
  induction ns as [|n ns IH]; simpl; intros Hc Hin.
  - by apply elem_of_nil in Hin.
  - destruct Hc as (Hn & Hl & Hc). apply elem_of_cons in Hin as [->|Hin]; eauto.
Qed.

(** Two null-terminated chains from one address are the same chain. *)
Lemma cells_functional (h : heap) (ns1 ns2 : list cell) :
  cells h ns1 NULL → cells h ns2 NULL →
  hd_addr ns1 NULL = hd_addr ns2 NULL → ns1 = ns2.
Proof.
  revert ns2. induction ns1 as [|[a c] ns1 IH]; intros [|[a' c'] ns2]; simpl.
  - done.
  - intros _ (Hn & _) E. congruence.
  - intros (Hn & _) _ E. congruence.
  - intros (_ & Hl & Hc) (_ & Hl' & Hc') E. subst a'.
    rewrite Hl in Hl'. injection Hl' as -> E'.
    f_equal. by apply IH.
Qed.

(** A null-terminated chain visits no node twice. *)
Lemma cells_NoDup (h : heap) (ns : list cell) :
  cells h ns NULL → NoDup ns.*1.
Proof.
  induction ns as [|[a c] ns IH]; simpl; intros Hc.
  - constructor.
  - destruct Hc as (Hn & Hl & Hc). constructor; [|by apply IH].
    intros Hin. apply list_elem_of_fmap in Hin as ([a' c'] & Ea & Hin).
    simpl in Ea. subst a'.
    apply list_elem_of_split in Hin as (l1 & l2 & ->).
    apply cells_app in Hc as Hsplit. destruct Hsplit as (_ & Hsuf).
    assert (E : (a, c) :: l1 ++ (a, c') :: l2 = (a, c') :: l2).
    { by apply (cells_functional h). }
    apply (f_equal length) in E. simpl in E. rewrite length_app in E.
    simpl in E. lia.
Qed.

Lemma cells_insert_ne (h : heap) (ns : list cell) (e a : pointer)
    (n : priqueue_node_t) :
  a ∉ ns.*1 → cells h ns e → cells (<[a := n]> h) ns e.
Proof.
  induction ns as [|[b c] ns IH]; simpl; [done|].
  intros Hnin (Hn & Hl & Hc). apply not_elem_of_cons in Hnin as [Hne Hnin].
  repeat split; [done| |by apply IH].
  by rewrite lookup_insert_ne.
Qed.

Lemma cells_delete_ne (h : heap) (ns : list cell) (e a : pointer) :
  a ∉ ns.*1 → cells h ns e → cells (delete a h) ns e.
Proof.
  induction ns as [|[b c] ns IH]; simpl; [done|].
  intros Hnin (Hn & Hl & Hc). apply not_elem_of_cons in Hnin as [Hne Hnin].
  repeat split; [done| |by apply IH].
  by rewrite lookup_delete_ne.
Qed.

(** The end of a segment only matters to its last cell. *)
Lemma cells_snoc_end (h : heap) (xs : list cell) (a c e : pointer) :
  cells h (xs ++ [(a, c)]) e ↔
  cells h xs a ∧ a ≠ NULL ∧ h !! a = Some (mknode c e).
Proof. rewrite cells_app. simpl. tauto. Qed.

Lemma load_cell (h : heap) (a c nx : pointer) :
  a ≠ NULL → h !! a = Some (mknode c nx) → load h a = Some (mknode c nx).
Proof. intros Hn Hl. unfold load. by rewrite bool_decide_eq_false_2. Qed.

Lemma load_NULL (h : heap) : load h NULL = None.
Proof. done. Qed.

Lemma store_content_ok (h : heap) (p v : pointer) (n : priqueue_node_t) :
  p ≠ NULL → h !! p = Some n →
  store_content h p v = Some (<[p := mknode v (next n)]> h).
Proof.
  intros Hn Hl. unfold store_content, load.
  by rewrite bool_decide_eq_false_2, Hl.
Qed.

Lemma store_next_ok (h : heap) (p v : pointer) (n : priqueue_node_t) :
  p ≠ NULL → h !! p = Some n →
  store_next h p v = Some (<[p := mknode (content n) v]> h).
Proof.
  intros Hn Hl. unfold store_next, load.
  by rewrite bool_decide_eq_false_2, Hl.
Qed.

Lemma int_checked_ok (z : Z) : INT_MIN ≤ z ≤ INT_MAX → int_checked z = Some z.
Proof. intros H. unfold int_checked. by rewrite bool_decide_eq_true_2. Qed.

Lemma walk_cells (h : heap) (pre suf : list cell) (e d : pointer) :
  cells h (pre ++ suf) e →
  walk (length pre) h (hd_addr (pre ++ suf) e) d
  = Some (hd_addr suf e, from_option fst d (last pre)).
Proof.
  revert d. induction pre as [|[a c] pre IH]; simpl; intros d Hc; [done|].
  destruct Hc as (Hn & Hl & Hc).
  rewrite (load_cell _ _ _ _ Hn Hl). simpl. rewrite (IH a Hc).
  rewrite last_cons. by destruct (last pre).
Qed.

(** Splitting a chain at a cell. *)
Lemma cells_middle (h : heap) (pre suf : list cell) (a c : pointer) :
  cells h (pre ++ (a, c) :: suf) NULL →
  cells h pre a ∧ a ≠ NULL ∧ h !! a = Some (mknode c (hd_addr suf NULL)) ∧
  cells h suf NULL ∧ (a ∉ pre.*1) ∧ (a ∉ suf.*1) ∧
  (∀ b, b ∈ pre.*1 → b ∉ suf.*1) ∧ NoDup pre.*1.
Proof.
  intros Hc. pose proof (cells_NoDup _ _ Hc) as Hnd.
  apply cells_app in Hc as (Hpre & Hn & Hl & Hsuf). simpl in Hpre.
  rewrite fmap_app, fmap_cons in Hnd. simpl in Hnd.
  apply NoDup_app in Hnd as (Hndpre & Hdisj & Hnd).
  apply NoDup_cons in Hnd as (Ha & _).
  repeat split; try done.
  - intros Hin. apply (Hdisj _ Hin). by left.
  - intros b Hb Hb'. apply (Hdisj _ Hb). by right.
Qed.

(** Unlinking the cell after [(la, lc)]: [last->next = now->next] and
    [free(now)]. *)
Lemma cells_unlink (h : heap) (pre suf : list cell) (la lc a c : pointer) :
  cells h ((pre ++ [(la, lc)]) ++ (a, c) :: suf) NULL →
  la ≠ NULL ∧ la ≠ a ∧ h !! la = Some (mknode lc a) ∧
  cells (delete a (<[la := mknode lc (hd_addr suf NULL)]> h))
        ((pre ++ [(la, lc)]) ++ suf) NULL.
Proof.
  intros Hc.
  apply cells_middle in Hc as (Hpre & Hn & Hla & Hsuf & Hnpre & Hnsuf & Hdisj & Hnd).
  apply cells_snoc_end in Hpre as (Hpre & Hln & Hll).
  rewrite fmap_app in Hnd, Hnpre, Hdisj. simpl in Hnd, Hnpre, Hdisj.
  apply NoDup_app in Hnd as (_ & Hlpre & _).
  apply not_elem_of_app in Hnpre as (Hnpre & Hne).
  assert (Hne' : la ≠ a) by (intros ->; apply Hne; by left).
  assert (Hlpre' : la ∉ pre.*1) by (intros Hin; apply (Hlpre _ Hin); by left).
  assert (Hlsuf : la ∉ suf.*1).
  { apply Hdisj. apply elem_of_app. right. by left. }
  repeat (split; [done|]).
  apply cells_app. split; [apply cells_snoc_end; split; [|split]|].
  - apply cells_delete_ne; [done|]. by apply cells_insert_ne.
  - done.
  - rewrite lookup_delete_ne by done. by rewrite lookup_insert_eq.
  - apply cells_delete_ne; [done|]. by apply cells_insert_ne.
Qed.

(** Linking a fresh node after [(la, lc)]: [last->next = node] and
    [node->next = now]. *)
Lemma cells_link (h : heap) (pre suf : list cell) (la lc node item : pointer) :
  cells h ((pre ++ [(la, lc)]) ++ suf) NULL →
  node ≠ NULL → node ∉ ((pre ++ [(la, lc)]) ++ suf).*1 →
  la ≠ NULL ∧ la ≠ node ∧ h !! la = Some (mknode lc (hd_addr suf NULL)) ∧
  cells (<[node := mknode item (hd_addr suf NULL)]> (<[la := mknode lc node]> h))
        ((pre ++ [(la, lc)]) ++ (node, item) :: suf) NULL.
Proof.
  intros Hc Hnn Hnin. rewrite <- (assoc_L (++)) in Hc. simpl in Hc.
  apply cells_middle in Hc as (Hpre & Hln & Hll & Hsuf & Hlpre & Hlsuf & _).
  rewrite !fmap_app in Hnin. simpl in Hnin.
  apply not_elem_of_app in Hnin as (Hnin & Hnsuf).
  apply not_elem_of_app in Hnin as (Hnpre & Hne).
  assert (Hne' : la ≠ node) by (intros ->; apply Hne; by left).
  repeat (split; [done|]).
  rewrite <- (assoc_L (++)). apply cells_app. simpl.
  split; [|split; [done|split; [|split; [done|split]]]].
  - by do 2 (apply cells_insert_ne; [done|]).
  - rewrite lookup_insert_ne by done. by rewrite lookup_insert_eq.
  - by rewrite lookup_insert_eq.
  - by do 2 (apply cells_insert_ne; [done|]).
Qed.

(** ** What each function does on a well-formed queue *)

Lemma priqueue_at_ge (q : priqueue_t) (h : heap) (index : Z) :
  index >= size q → priqueue_at q index h = Some NULL.
Proof. intros H. unfold priqueue_at. by rewrite bool_decide_eq_true_2. Qed.

Lemma priqueue_at_in_range (q : priqueue_t) (h : heap) (ns : list cell)
    (index a c : Z) :
  wf q h ns → 0 ≤ index → ns !! Z.to_nat index = Some (a, c) →
  priqueue_at q index h = Some c.
Proof.
  intros ((Hr & Hc) & Hs & _) H0 Hl.
  pose proof (lookup_lt_Some _ _ _ Hl) as Hlt.
  unfold priqueue_at. rewrite bool_decide_eq_false_2 by lia.
  pose proof (take_drop_middle _ _ _ Hl) as E.
  rewrite <- E in Hc, Hr. rewrite Hr.
  replace (Z.to_nat index) with (length (take (Z.to_nat index) ns)) at 1
    by (rewrite length_take; lia).
  rewrite (walk_cells _ _ _ _ _ Hc). simpl.
  apply cells_middle in Hc as (_ & Hn & Hla & _).
  by rewrite (load_cell _ _ _ _ Hn Hla).
Qed.

(** A negative index passes the range test, the loop does not run, and
    the head is read. *)
Lemma priqueue_at_negative (q : priqueue_t) (h : heap) (ns : list cell)
    (index : Z) :
  wf q h ns → index < 0 →
  priqueue_at q index h = snd <$> head ns.
Proof.
  intros ((Hr & Hc) & Hs & _) Hneg.
  unfold priqueue_at. rewrite bool_decide_eq_false_2 by lia.
  replace (Z.to_nat index) with O by lia. simpl. rewrite Hr.
  destruct ns as [|[a c] ns]; simpl; [done|].
  destruct Hc as (Hn & Hl & _). simpl in Hn, Hl.
  by rewrite (load_cell _ _ _ _ Hn Hl).
Qed.

Lemma priqueue_peek_spec (q : priqueue_t) (h : heap) (ns : list cell) :
  wf q h ns → priqueue_peek q h = Some (from_option snd NULL (head ns)).
Proof.
  intros ((Hr & Hc) & Hs & _). unfold priqueue_peek.
  destruct ns as [|[a c] ns]; simpl in *.
  - by rewrite bool_decide_eq_true_2.
  - rewrite bool_decide_eq_false_2 by lia. rewrite Hr.
    destruct Hc as (Hn & Hl & _). by rewrite (load_cell _ _ _ _ Hn Hl).
Qed.

Lemma priqueue_poll_empty (q : priqueue_t) (h : heap) :
  size q = 0 → priqueue_poll q h = Some (NULL, q, h).
Proof. intros H. unfold priqueue_poll. by rewrite bool_decide_eq_true_2. Qed.

Lemma priqueue_poll_cons (q : priqueue_t) (h : heap) (ns : list cell)
    (a c : Z) :
  wf q h ((a, c) :: ns) →
  ∃ q' h', priqueue_poll q h = Some (c, q', h') ∧ wf q' h' ns ∧
           comparer q' = comparer q ∧ h' = delete a h.
Proof.
  intros ((Hr & Hc) & Hs & Hmax). simpl in *.
  apply (cells_middle h []) in Hc as (_ & Hn & Hl & Hc & _ & Hnin & _ & _).
  unfold priqueue_poll. rewrite bool_decide_eq_false_2 by lia.
  rewrite Hr, (load_cell _ _ _ _ Hn Hl). simpl.
  unfold free. rewrite bool_decide_eq_false_2, Hl by done. simpl.
  rewrite int_checked_ok by (unfold INT_MIN; lia). simpl.
  eexists _, _. split; [done|]. repeat split; simpl; try done; try lia.
  by apply cells_delete_ne.
Qed.

Lemma priqueue_remove_at_ge (q : priqueue_t) (h : heap) (index : Z) :
  index >= size q → priqueue_remove_at q index h = Some (NULL, q, h).
Proof. intros H. unfold priqueue_remove_at. by rewrite bool_decide_eq_true_2. Qed.

Lemma priqueue_remove_at_in_range (q : priqueue_t) (h : heap)
    (ns : list cell) (index a c : Z) :
  wf q h ns → 0 < index → ns !! Z.to_nat index = Some (a, c) →
  ∃ q' h', priqueue_remove_at q index h = Some (c, q', h') ∧
           wf q' h' (delete (Z.to_nat index) ns) ∧ comparer q' = comparer q.
Proof.
  intros ((Hr & Hc) & Hs & Hmax) H0 Hl.
  pose proof (lookup_lt_Some _ _ _ Hl) as Hlt.
  unfold priqueue_remove_at. rewrite bool_decide_eq_false_2 by lia.
  rewrite delete_take_drop.
  pose proof (take_drop_middle _ _ _ Hl) as E.
  pose proof (length_take_le ns (Z.to_nat index) ltac:(lia)) as Hlen.
  revert E Hlen.
  generalize (take (Z.to_nat index) ns) (drop (S (Z.to_nat index)) ns).
  intros pre suf E Hlen. subst ns.
  rewrite Hr, <- Hlen, (walk_cells _ _ _ _ _ Hc). simpl.
  destruct (last pre) as [[la lc]|] eqn:Hlast; simpl.
  2:{ apply last_None in Hlast. rewrite Hlast in Hlen. simpl in Hlen. lia. }
  apply last_Some in Hlast as (pre' & ->).
  pose proof (cells_unlink _ _ _ _ _ _ _ Hc) as (Hln & Hne & Hll & Hc').
  apply cells_middle in Hc as (_ & Hn & Hla & _).
  rewrite (load_cell _ _ _ _ Hn Hla). simpl.
  unfold store_next. rewrite (load_cell _ _ _ _ Hln Hll). simpl.
  unfold free. rewrite bool_decide_eq_false_2 by done.
  rewrite lookup_insert_ne, Hla by done. simpl.
  rewrite int_checked_ok by (unfold INT_MIN; lia). simpl.
  eexists _, _. split; [done|].
  repeat split; simpl; try done.
  - rewrite Hr. by rewrite !hd_addr_app.
  - rewrite !length_app in *. simpl in *. lia.
  - lia.
Qed.

(** At an index that is not positive but below [size], [last] is still
    [NULL] when [last->next] is written (line 213). *)
Lemma priqueue_remove_at_nonpositive (q : priqueue_t) (h : heap)
    (ns : list cell) (index : Z) :
  wf q h ns → index ≤ 0 → index < size q →
  priqueue_remove_at q index h = None.
Proof.
  intros ((Hr & Hc) & Hs & _) H0 Hlt.
  unfold priqueue_remove_at. rewrite bool_decide_eq_false_2 by lia.
  replace (Z.to_nat index) with O by lia. simpl. rewrite Hr.
  destruct ns as [|[a c] ns]; simpl; [done|].
  destruct Hc as (Hn & Hl & _). simpl in Hn, Hl.
  by rewrite (load_cell _ _ _ _ Hn Hl).
Qed.

Lemma remove_loop_spec (ptr : pointer) (suf : list cell) :
  ∀ (q : priqueue_t) (h : heap) (pre : list cell) (counter : Z),
    cells h (pre ++ suf) NULL → root q = hd_addr (pre ++ suf) NULL →
    0 ≤ counter → counter + Z.of_nat (length suf) ≤ INT_MAX →
    0 ≤ size q ≤ INT_MAX →
    ∃ q' h',
      remove_loop (length suf) q ptr h (hd_addr suf NULL) (last_addr pre) counter
      = Some (counter + Z.of_nat (length (filter (λ n, n.2 = ptr) suf)), q', h') ∧
      cells h' (pre ++ filter (λ n, n.2 ≠ ptr) suf) NULL ∧
      root q' = hd_addr (pre ++ filter (λ n, n.2 ≠ ptr) suf) NULL ∧
      size q' = size q
                - (counter + Z.of_nat (length (filter (λ n, n.2 = ptr) suf))) ∧
      comparer q' = comparer q.
Proof.
  induction suf as [|[a c] suf IH]; intros q h pre counter Hc Hr H0 Hmax Hsz.
  - simpl. rewrite int_checked_ok by (simpl in Hmax; unfold INT_MIN, INT_MAX in *; lia). simpl.
    eexists _, _. rewrite Z.add_0_r. split; [done|]. by repeat split.
  - pose proof Hc as Hc0.
    apply cells_middle in Hc as (Hpre & Hn & Hla & Hsuf & Hnpre & Hnsuf & _).
    cbn [remove_loop length hd_addr fst].
    rewrite (load_cell _ _ _ _ Hn Hla). run.
    rewrite !filter_cons. cbn [snd].
    destruct (decide (c = ptr)) as [->|Hne].
    + rewrite bool_decide_eq_true_2 by done.
      destruct (decide (ptr = ptr)); [|done].
      destruct (decide (ptr ≠ ptr)); [done|].
      cbn [length].
      destruct (last pre) as [[la lc]|] eqn:Hlast.
      * apply last_Some in Hlast as (pre' & ->). rewrite last_addr_snoc.
        cbn [fst].
        pose proof (cells_unlink _ _ _ _ _ _ _ Hc0) as (Hln & Hnea & Hll & Hc').
        rewrite bool_decide_eq_false_2 by done.
        unfold store_next. rewrite (load_cell _ _ _ _ Hln Hll).
        run.
        unfold load at 1. rewrite bool_decide_eq_false_2 by done.
        rewrite lookup_insert_ne, Hla by done.
        run.
        unfold free. rewrite bool_decide_eq_false_2 by done.
        rewrite lookup_insert_ne, Hla by done.
        run.
        rewrite int_checked_ok
          by (cbn [length] in Hmax; unfold INT_MIN, INT_MAX in *; lia).
        cbn [mbind option_bind].
        rewrite !hd_addr_app in Hr. cbn [hd_addr] in Hr.
        destruct (IH q _ (pre' ++ [(la, lc)]) (counter + 1) Hc')
          as (q' & h' & Hrun & Hc'' & Hr' & Hs' & Hcmp);
          [by rewrite !hd_addr_app|lia|cbn [length] in Hmax; lia|done|].
        rewrite last_addr_snoc in Hrun. cbn [fst] in Hrun.
        exists q', h'. rewrite Hrun.
        split; [do 3 f_equal; lia|]. repeat split; try done. lia.
      * apply last_None in Hlast as ->. unfold last_addr. cbn [last from_option].
        rewrite bool_decide_eq_true_2 by done.
        run.
        rewrite (load_cell _ _ _ _ Hn Hla).
        run.
        unfold free. rewrite bool_decide_eq_false_2, Hla by done.
        run.
        rewrite int_checked_ok
          by (cbn [length] in Hmax; unfold INT_MIN, INT_MAX in *; lia).
        cbn [mbind option_bind].
        destruct (IH (set_root q (hd_addr suf NULL)) (delete a h) [] (counter + 1))
          as (q' & h' & Hrun & Hc'' & Hr' & Hs' & Hcmp);
          [by apply cells_delete_ne|done|lia|cbn [length] in Hmax; lia|done|].
        exists q', h'. unfold last_addr in Hrun. cbn [last from_option] in Hrun.
        rewrite Hrun.
        split; [do 3 f_equal; lia|]. repeat split; try done.
        cbn [set_root size] in Hs'. lia.
    + rewrite bool_decide_eq_false_2 by done.
      destruct (decide (c = ptr)); [done|].
      destruct (decide (c ≠ ptr)); [|done].
      rewrite cons_middle, (assoc_L (++)) in Hc0, Hr.
      destruct (IH q h (pre ++ [(a, c)]) counter Hc0 Hr H0 ltac:(simpl in Hmax; lia) Hsz)
        as (q' & h' & Hrun & Hc' & Hr' & Hs' & Hcmp).
      rewrite last_addr_snoc in Hrun. simpl in Hrun.
      exists q', h'. rewrite Hrun.
      rewrite (cons_middle _ pre), (assoc_L (++)). done.
Qed.

Lemma set_size_id (q : priqueue_t) (s : Z) : s = size q → set_size q s = q.
Proof. intros ->. by destruct q. Qed.

(** With no payload equal to [ptr], the loop of [priqueue_remove] only
    walks. *)
Lemma remove_loop_absent (ptr : pointer) (suf : list cell) :
  ∀ (q : priqueue_t) (h : heap) (last counter : Z),
    cells h suf NULL → ptr ∉ suf.*2 →
    remove_loop (length suf) q ptr h (hd_addr suf NULL) last counter
    = (s ← int_checked (size q - counter); Some (counter, set_size q s, h)).
Proof.
  induction suf as [|[a c] suf IH]; intros q h last counter Hc Hnin; [done|].
  destruct Hc as (Hn & Hl & Hc). simpl in Hn, Hl.
  rewrite fmap_cons in Hnin. apply not_elem_of_cons in Hnin as (Hne & Hnin).
  cbn [remove_loop length hd_addr fst].
  rewrite (load_cell _ _ _ _ Hn Hl). run.
  rewrite bool_decide_eq_false_2 by (simpl in Hne; congruence).
  by apply IH.
Qed.

Lemma priqueue_remove_spec (q : priqueue_t) (h : heap) (ns : list cell)
    (ptr : pointer) :
  wf q h ns →
  ∃ q' h',
    priqueue_remove q ptr h
    = Some (Z.of_nat (length (filter (λ n, n.2 = ptr) ns)), q', h') ∧
    wf q' h' (filter (λ n, n.2 ≠ ptr) ns) ∧
    size q' = size q - Z.of_nat (length (filter (λ n, n.2 = ptr) ns)) ∧
    comparer q' = comparer q.
Proof.
  intros ((Hr & Hc) & Hs & Hmax). unfold priqueue_remove.
  destruct (remove_loop_spec ptr ns q h [] 0)
    as (q' & h' & Hrun & Hc' & Hr' & Hs' & Hcmp); try done; try lia.
  rewrite Hs, Nat2Z.id. rewrite Hr. unfold last_addr in Hrun.
  cbn [last from_option] in Hrun. rewrite Hrun. simpl.
  exists q', h'. split; [done|].
  assert (Hle := length_filter (λ n : Z * Z, n.2 = ptr) ns).
  assert (Hsum : (length (filter (λ n : Z * Z, n.2 = ptr) ns)
                  + length (filter (λ n : Z * Z, n.2 ≠ ptr) ns) = length ns)%nat).
  { clear. induction ns as [|n ns IH]; [done|]. rewrite !filter_cons.
    destruct (decide (n.2 = ptr)), (decide (n.2 ≠ ptr)); simpl; try done; lia. }
  simpl in Hc', Hr'. repeat split; try done; lia.
Qed.

Lemma offer_loop_spec (node item : pointer) (suf : list cell) :
  ∀ (q : priqueue_t) (h : heap) (pre : list cell) (counter : Z),
    cells h (pre ++ suf) NULL → root q = hd_addr (pre ++ suf) NULL →
    node ≠ NULL → node ∉ (pre ++ suf).*1 →
    h !! node = Some (mknode item NULL) →
    pre ++ suf ≠ [] →
    0 ≤ counter → counter + Z.of_nat (length suf) < INT_MAX →
    0 ≤ size q < INT_MAX →
    let k := insert_pos (comparer q) item suf.*2 in
    ∃ q' h',
      offer_loop (length suf) q node h counter (hd_addr suf NULL) (last_addr pre)
      = Some (if decide (k < length suf)%nat then counter + Z.of_nat k
              else counter + Z.of_nat (length suf) + 1, q', h') ∧
      cells h' (pre ++ take k suf ++ (node, item) :: drop k suf) NULL ∧
      root q' = hd_addr (pre ++ take k suf ++ (node, item) :: drop k suf) NULL ∧
      size q' = size q + 1 ∧
      comparer q' = comparer q.
Proof.
  induction suf as [|[a c] suf IH];
    intros q h pre counter Hc Hr Hnn Hnin Hnode Hne H0 Hmax Hsz k.
  - rewrite app_nil_r in *. subst k. cbn [fmap list_fmap insert_pos length take drop].
    destruct (last pre) as [[la lc]|] eqn:Hlast;
      [|by apply last_None in Hlast].
    apply last_Some in Hlast as (pre' & ->). rewrite last_addr_snoc.
    cbn [offer_loop fst hd_addr].
    rewrite <- (app_nil_r (pre' ++ [(la, lc)])) in Hc, Hnin.
    destruct (cells_link _ _ _ _ _ _ item Hc Hnn Hnin) as (Hln & Hlne & Hll & Hc').
    unfold store_next. rewrite (load_cell _ _ _ _ Hln Hll).
    run.
    rewrite !int_checked_ok by (unfold INT_MIN, INT_MAX in *; simpl in *; lia).
    cbn [mbind option_bind].
    rewrite decide_False by lia.
    replace (counter + Z.of_nat 0 + 1) with (counter + 1) by lia.
    eexists _, _. split; [done|].
    rewrite insert_id in Hc'
      by (rewrite lookup_insert_ne by done; exact Hnode).
    repeat split; try done.
    cbn [app set_size root]. rewrite Hr. by rewrite !hd_addr_app.
  - pose proof Hc as Hc0.
    apply cells_middle in Hc as (Hpre & Hn & Hla & Hsuf & Hapre & Hasuf & _).
    subst k. cbn [offer_loop length hd_addr fst fmap list_fmap snd insert_pos].
    rewrite (load_cell _ _ _ _ Hn Hla), (load_cell _ _ _ _ Hnn Hnode).
    run.
    destruct (decide (comparer q c item > 0)) as [Hgt|Hle].
    + rewrite !bool_decide_eq_true_2 by done.
      rewrite decide_True by lia. cbn [take drop app]. rewrite Z.add_0_r.
      destruct (last pre) as [[la lc]|] eqn:Hlast.
      * apply last_Some in Hlast as (pre' & ->). rewrite last_addr_snoc.
        cbn [fst].
        destruct (cells_link _ _ _ _ _ _ item Hc0 Hnn Hnin)
          as (Hln & Hlne & Hll & Hc').
        rewrite bool_decide_eq_false_2 by done.
        unfold store_next. rewrite (load_cell _ _ _ _ Hln Hll).
        run.
        unfold load. rewrite bool_decide_eq_false_2 by done.
        rewrite lookup_insert_ne, Hnode by done.
        run.
        rewrite int_checked_ok by (unfold INT_MIN, INT_MAX in *; lia).
        cbn [mbind option_bind].
        eexists _, _. split; [done|].
        repeat split; try done.
        cbn [set_size root]. rewrite Hr. by rewrite !hd_addr_app.
      * apply last_None in Hlast as ->. unfold last_addr.
        cbn [last from_option app] in *.
        rewrite bool_decide_eq_true_2 by done.
        unfold store_next. rewrite (load_cell _ _ _ _ Hnn Hnode).
        cbn [mbind option_bind content next set_root size].
        rewrite int_checked_ok by (unfold INT_MIN, INT_MAX in *; lia).
        cbn [mbind option_bind].
        eexists _, _. split; [done|]. split; [|done].
        split; [done|]. split; [by rewrite lookup_insert_eq|].
        by apply (cells_insert_ne h ((a, c) :: suf)).
    + rewrite !bool_decide_eq_false_2 by done.
      rewrite int_checked_ok
        by (cbn [length] in Hmax; unfold INT_MIN, INT_MAX in *; lia).
      cbn [mbind option_bind].
      rewrite cons_middle, (assoc_L (++)) in Hc0, Hr, Hnin.
      destruct (IH q h (pre ++ [(a, c)]) (counter + 1) Hc0 Hr Hnn Hnin Hnode)
        as (q' & h' & Hrun & Hc' & Hr' & Hs' & Hcmp);
        [by destruct pre|lia|cbn [length] in Hmax; lia|done|].
      rewrite last_addr_snoc in Hrun. cbn [fst] in Hrun.
      exists q', h'. rewrite Hrun. cbn [take drop length].
      rewrite <- (assoc_L (++)) in Hc', Hr'.
      split; [|done].
      do 3 f_equal.
      destruct (decide (insert_pos (comparer q) item suf.*2 < length suf)%nat);
        [rewrite decide_True by lia|rewrite decide_False by lia]; lia.
Qed.

Section OfferSpec.

Variable malloc : heap → pointer.
Hypothesis malloc_fresh : ∀ h : heap, malloc h ≠ NULL ∧ h !! malloc h = None.

Lemma priqueue_offer_spec (q : priqueue_t) (h : heap) (ns : list cell)
    (item : pointer) :
  wf q h ns → size q < INT_MAX →
  let k := insert_pos (comparer q) item ns.*2 in
  ∃ q' h',
    priqueue_offer malloc q item h = Some (offer_ret k (length ns), q', h') ∧
    wf q' h' (take k ns ++ (malloc h, item) :: drop k ns) ∧
    comparer q' = comparer q.
Proof.
  intros ((Hr & Hc) & Hs & _) Hmax k.
  destruct (malloc_fresh h) as (Hnn & Hfresh).
  assert (Hnin : malloc h ∉ ns.*1).
  { intros Hin. apply (cells_in_heap _ _ _ _ Hc) in Hin as (_ & (? & ?)).
    congruence. }
  unfold priqueue_offer.
  rewrite (store_content_ok _ _ _ (mknode NULL NULL))
    by (done || by rewrite lookup_insert_eq).
  run. rewrite insert_insert_eq.
  rewrite (store_next_ok _ _ _ (mknode item NULL))
    by (done || by rewrite lookup_insert_eq).
  run. rewrite insert_insert_eq.
  destruct ns as [|[a c] ns].
  - rewrite bool_decide_eq_true_2 by done.
    rewrite int_checked_ok by (unfold INT_MIN, INT_MAX in *; simpl in *; lia).
    cbn [mbind option_bind].
    eexists _, _. split; [done|]. subst k. simpl.
    repeat split; simpl in *; try done; try lia.
    by rewrite lookup_insert_eq.
  - pose proof Hc as (Hn & _). simpl in Hn.
    rewrite bool_decide_eq_false_2 by (rewrite Hr; done).
    rewrite Hs, Nat2Z.id.
    destruct (offer_loop_spec (malloc h) item ((a, c) :: ns) q
                (<[malloc h := mknode item NULL]> h) [] 0)
      as (q' & h' & Hrun & Hc' & Hr' & Hs' & Hcmp);
      try done; try lia.
    { by apply cells_insert_ne. }
    { by rewrite lookup_insert_eq. }
    fold k in Hrun, Hc', Hr'. unfold last_addr in Hrun.
    cbn [last from_option] in Hrun. rewrite <- Hr in Hrun. rewrite Hrun.
    exists q', h'. split.
    + do 3 f_equal. unfold offer_ret.
      assert (Hpos : (0 < length ((a, c) :: ns))%nat) by (simpl; lia).
      revert Hpos. generalize (length ((a, c) :: ns)).
      intros n Hpos. destruct (decide (k < n)%nat);
        [rewrite decide_True by lia|rewrite decide_False by lia]; lia.
    + repeat split; try done.
      * rewrite Hs', Hs, length_app. cbn [length].
        rewrite length_take, length_drop.
        pose proof (insert_pos_le (comparer q) item ((a, c) :: ns).*2) as Hk.
        rewrite length_fmap in Hk. fold k in Hk. simpl in *. lia.
      * lia.
Qed.

End OfferSpec.

(** ** Payload-level facts *)

Lemma fmap_snd_insert (ns : list cell) (k : nat) (a item : pointer) :
  (take k ns ++ (a, item) :: drop k ns).*2
  = take k ns.*2 ++ item :: drop k ns.*2.
Proof. by rewrite fmap_app, fmap_cons, fmap_take, fmap_drop. Qed.

Lemma fmap_snd_filter (ns : list cell) (ptr : pointer) :
  (filter (λ n, n.2 ≠ ptr) ns).*2 = filter (λ c, c ≠ ptr) ns.*2.
Proof.
  induction ns as [|[a c] ns IH]; [done|].
  rewrite fmap_cons, !filter_cons. cbn [snd].
  destruct (decide (c ≠ ptr)); [rewrite fmap_cons|]; by rewrite IH.
Qed.

Lemma length_filter_snd (ns : list cell) (ptr : pointer) :
  length (filter (λ n, n.2 = ptr) ns) = length (filter (λ c, c = ptr) ns.*2).
Proof.
  induction ns as [|[a c] ns IH]; [done|].
  rewrite fmap_cons, !filter_cons. cbn [snd].
  destruct (decide (c = ptr)); cbn [length]; by rewrite IH.
Qed.

(** The scan of [priqueue_offer] passes only payloads that are not
    strictly greater than the item and stops at one that is. *)
Lemma insert_pos_spec (cmp : pointer → pointer → Z) (item : pointer)
    (l : list Z) :
  Forall (λ c, cmp c item ≤ 0) (take (insert_pos cmp item l) l) ∧
  (∀ g, head (drop (insert_pos cmp item l) l) = Some g → cmp g item > 0).
Proof.
  induction l as [|c l (IH1 & IH2)]; simpl.
  - split; [constructor|done].
  - case_bool_decide as Hgt; simpl.
    + split; [constructor|]. by intros g [= <-].
    + split; [|done]. constructor; [lia|done].
Qed.

Lemma remove_loop_comparer (cmp : pointer → pointer → Z) (ptr : pointer)
    (n : nat) :
  ∀ (q : priqueue_t) (h : heap) (now last counter : Z),
    remove_loop n (with_comparer cmp q) ptr h now last counter
    = (λ r, (r.1.1, with_comparer cmp r.1.2, r.2))
        <$> remove_loop n q ptr h now last counter.
Proof.
  induction n as [|n IH]; intros q h now last counter; simpl.
  - by destruct (int_checked (size q - counter)).
  - destruct (load h now) as [nd|]; simpl; [|done].
    case_bool_decide; [|destruct (load h now); simpl; [apply IH|done]].
    case_bool_decide; simpl.
    + destruct (load h now); simpl; [|done].
      destruct (free h now); simpl; [|done].
      destruct (int_checked (counter + 1)); simpl; [|done].
      apply (IH (set_root q (next nd))).
    + destruct (store_next h last (next nd)) as [h1|]; simpl; [|done].
      destruct (load h1 now); simpl; [|done].
      destruct (free h1 now); simpl; [|done].
      destruct (int_checked (counter + 1)); simpl; [|done].
      apply IH.
Qed.

(** ** Order facts *)

Section Order.

Variable cmp : pointer → pointer → Z.
Hypothesis cmp_consistent : consistent cmp.

Lemma cle_transitive : Transitive (cle cmp).
Proof. intros a b c. unfold cle. apply (cmp_le_trans cmp cmp_consistent). Qed.

(** Inserting at the scanned position keeps a sorted list sorted. *)
Lemma Sorted_insert_pos (item : pointer) (l : list Z) :
  Sorted (cle cmp) l →
  Sorted (cle cmp)
    (take (insert_pos cmp item l) l ++ item :: drop (insert_pos cmp item l) l).
Proof.
  induction l as [|c l IH]; intros Hs; simpl.
  - by repeat constructor.
  - apply Sorted_inv in Hs as (Hs & Hhd). case_bool_decide as Hgt; simpl.
    + constructor; [by constructor|]. constructor.
      by apply (cmp_gt_le cmp cmp_consistent).
    + constructor; [by apply IH|].
      destruct l as [|d l]; simpl.
      * constructor. unfold cle. lia.
      * apply HdRel_inv in Hhd. case_bool_decide; simpl; constructor;
          [unfold cle; lia|done].
Qed.

Lemma StronglySorted_sublist (l1 l2 : list Z) :
  l1 `sublist_of` l2 →
  StronglySorted (cle cmp) l2 → StronglySorted (cle cmp) l1.
Proof.
  induction 1 as [|x l1 l2 Hsub IH|x l1 l2 Hsub IH]; intros Hs.
  - constructor.
  - apply StronglySorted_inv in Hs as (Hs & Hall). constructor; [by apply IH|].
    apply Forall_forall. intros y Hy. rewrite Forall_forall in Hall.
    apply Hall. by apply (elem_of_sublist l1 l2 y).
  - apply StronglySorted_inv in Hs as (Hs & _). by apply IH.
Qed.

(** Dropping entries keeps a sorted list sorted. *)
Lemma Sorted_sublist (l1 l2 : list Z) :
  l1 `sublist_of` l2 → Sorted (cle cmp) l2 → Sorted (cle cmp) l1.
Proof.
  intros Hsub Hs. apply StronglySorted_Sorted.
  apply (StronglySorted_sublist _ _ Hsub).
  apply Sorted_StronglySorted; [apply cle_transitive|done].
Qed.

(** The scan passes a prefix of payloads none of which is strictly
    greater than the item. *)
Lemma insert_pos_app (item : pointer) (l1 l2 : list Z) :
  Forall (λ c, cmp c item ≤ 0) l1 →
  insert_pos cmp item (l1 ++ l2) = (length l1 + insert_pos cmp item l2)%nat.
Proof.
  induction 1 as [|c l1 Hc Hall IH]; simpl; [done|].
  rewrite bool_decide_eq_false_2 by lia. by rewrite IH.
Qed.

(** In a sorted list no payload from the scanned position on compares
    equal to the item. *)
Lemma insert_pos_after_not_equal (item : pointer) (l : list Z) :
  Sorted (cle cmp) l →
  Forall (λ c, cmp c item ≠ 0) (drop (insert_pos cmp item l) l).
Proof.
  induction l as [|c l IH]; intros Hs; simpl; [constructor|].
  case_bool_decide as Hgt; simpl.
  - apply Sorted_StronglySorted in Hs; [|apply cle_transitive].
    apply StronglySorted_inv in Hs as (_ & Hall).
    constructor; [lia|].
    apply Forall_forall. intros e He Heq. rewrite Forall_forall in Hall.
    pose proof (cmp_le_trans cmp cmp_consistent c e item (Hall e He)) as Htr.
    lia.
  - apply Sorted_inv in Hs as (Hs & _). by apply IH.
Qed.

End Order.

Lemma insert_after {A : Type} (pre suf : list A) (x y : A) (j : nat) :
  take (length pre + 1 + j) (pre ++ x :: suf) ++
    y :: drop (length pre + 1 + j) (pre ++ x :: suf)
  = pre ++ x :: take j suf ++ y :: drop j suf.
Proof.
  rewrite (cons_middle x pre suf), (assoc_L (++)).
  replace (length pre + 1 + j)%nat with (length (pre ++ [x]) + j)%nat
    by (rewrite length_app; simpl; lia).
  rewrite take_app_add, drop_app_add. by rewrite <- !(assoc_L (++)).
Qed.

Lemma wf_init (cmp : pointer → pointer → Z) (h : heap) :
  wf (priqueue_init cmp) h [].
Proof. unfold wf, chain, INT_MAX. simpl. repeat split; done. Qed.

(** A full queue cannot take another entry: [q->size++] overflows. *)
Lemma offer_loop_full (node : pointer) (n : nat) :
  ∀ (q : priqueue_t) (h : heap) (counter now last : Z),
    INT_MAX ≤ size q → offer_loop n q node h counter now last = None.
Proof.
  assert (Hov : ∀ z, INT_MAX ≤ z → int_checked (z + 1) = None).
  { intros z Hz. unfold int_checked. rewrite bool_decide_eq_false_2; [done|].
    unfold INT_MAX in *. lia. }
  induction n as [|n IH]; intros q h counter now last Hfull; simpl.
  - destruct (store_next h last node); simpl; [|done].
    destruct (int_checked (counter + 1)); simpl; [|done].
    by rewrite Hov.
  - destruct (load h now); simpl; [|done].
    destruct (load h node); simpl; [|done].
    case_bool_decide.
    + case_bool_decide.
      * destruct (store_next h node now); simpl; [|done]. by rewrite Hov.
      * destruct (store_next h last node) as [h1|]; simpl; [|done].
        destruct (store_next h1 node now); simpl; [|done]. by rewrite Hov.
    + destruct (int_checked (counter + 1)); simpl; [|done]. by apply IH.
Qed.

Lemma priqueue_offer_full (malloc : heap → pointer) (q : priqueue_t)
    (ptr : pointer) (h : heap) :
  INT_MAX ≤ size q → priqueue_offer malloc q ptr h = None.
Proof.
  intros Hfull. unfold priqueue_offer.
  destruct (store_content _ _ _) as [h1|]; simpl; [|done].
  destruct (store_next h1 _ _) as [h2|]; simpl; [|done].
  case_bool_decide.
  - unfold int_checked. rewrite bool_decide_eq_false_2; [done|].
    unfold INT_MAX in *. lia.
  - by apply offer_loop_full.
Qed.

(** ** Sequences of calls on a well-formed queue *)

Section Sequences.

Variable malloc : heap → pointer.
Hypothesis malloc_fresh : ∀ h : heap, malloc h ≠ NULL ∧ h !! malloc h = None.

(** Every call that returns keeps the header and the chain in step, and
    keeps a sorted chain sorted. *)
Lemma step_wf (o : op) (q q' : priqueue_t) (h h' : heap) (ns : list cell) :
  wf q h ns → step malloc o q h = Some (q', h') →
  ∃ ns', wf q' h' ns' ∧ comparer q' = comparer q ∧
         (consistent (comparer q) → Sorted (cle (comparer q)) ns.*2 →
          Sorted (cle (comparer q)) ns'.*2).
Proof.
  intros Hwf Hstep. destruct o as [ptr| |ptr|index]; simpl in Hstep.
  - destruct (decide (size q < INT_MAX)) as [Hlt|Hfull].
    + destruct (priqueue_offer_spec malloc malloc_fresh q h ns ptr Hwf Hlt)
        as (q1 & h1 & Hrun & Hwf1 & Hcmp).
      rewrite Hrun in Hstep. simpl in Hstep. injection Hstep as <- <-.
      eexists. split; [done|]. split; [done|]. intros Hcons Hs.
      rewrite fmap_snd_insert. by apply Sorted_insert_pos.
    + rewrite priqueue_offer_full in Hstep by lia. done.
  - destruct ns as [|[a c] ns].
    + rewrite priqueue_poll_empty in Hstep by (destruct Hwf as (_ & ? & _); done).
      simpl in Hstep. injection Hstep as <- <-. by exists [].
    + destruct (priqueue_poll_cons q h ns a c Hwf)
        as (q1 & h1 & Hrun & Hwf1 & Hcmp & _).
      rewrite Hrun in Hstep. simpl in Hstep. injection Hstep as <- <-.
      exists ns. split; [done|]. split; [done|]. intros _ Hs.
      rewrite fmap_cons in Hs. by apply Sorted_inv in Hs as (? & _).
  - destruct (priqueue_remove_spec q h ns ptr Hwf)
      as (q1 & h1 & Hrun & Hwf1 & _ & Hcmp).
    rewrite Hrun in Hstep. simpl in Hstep. injection Hstep as <- <-.
    eexists. split; [done|]. split; [done|]. intros Hcons Hs.
    rewrite fmap_snd_filter.
    by apply (Sorted_sublist _ Hcons _ ns.*2); [apply sublist_filter|].
  - destruct (decide (index >= size q)) as [Hge|Hlt].
    + rewrite priqueue_remove_at_ge in Hstep by done.
      simpl in Hstep. injection Hstep as <- <-. by exists ns.
    + destruct (decide (0 < index)) as [Hpos|Hnpos].
      * destruct (lookup_lt_is_Some_2 ns (Z.to_nat index)) as ([a c] & Hl).
        { destruct Hwf as (_ & ? & _). lia. }
        destruct (priqueue_remove_at_in_range q h ns index a c Hwf Hpos Hl)
          as (q1 & h1 & Hrun & Hwf1 & Hcmp).
        rewrite Hrun in Hstep. simpl in Hstep. injection Hstep as <- <-.
        eexists. split; [done|]. split; [done|]. intros Hcons Hs.
        rewrite list_fmap_delete.
        by apply (Sorted_sublist _ Hcons _ ns.*2); [apply sublist_delete|].
      * rewrite (priqueue_remove_at_nonpositive q h ns) in Hstep by (done || lia).
        done.
Qed.

Lemma reachable_wf (cmp : pointer → pointer → Z) (q : priqueue_t) (h : heap) :
  reachable malloc cmp q h →
  ∃ ns, wf q h ns ∧ comparer q = cmp ∧
        (consistent cmp → Sorted (cle cmp) ns.*2).
Proof.
  induction 1 as [h|o q q' h h' _ (ns & Hwf & Hcmp & Hs) Hstep].
  - exists []. split; [apply wf_init|]. split; [done|]. intros _. constructor.
  - destruct (step_wf o q q' h h' ns Hwf Hstep) as (ns' & Hwf' & Hcmp' & Hs').
    exists ns'. split; [done|]. split; [congruence|].
    intros Hcons. rewrite Hcmp in Hs'. by apply Hs', Hs.
Qed.

(** C8.  In every state reached from [priqueue_init] by calls of
    [priqueue_offer], [priqueue_poll], [priqueue_remove] and
    [priqueue_remove_at] that return, [root] heads a null-terminated chain
    of exactly [size] nodes, and [priqueue_at] retrieves the payload of the
    [i]-th of them for every [i] from 0 below [priqueue_size]. *)
Theorem size_consistency (cmp : pointer → pointer → Z) (q : priqueue_t)
    (h : heap) :
  reachable malloc cmp q h →
  ∃ ns, chain h (root q) ns ∧ NoDup ns.*1 ∧
        priqueue_size q = Z.of_nat (length ns) ∧
        ∀ i, 0 ≤ i < priqueue_size q →
             ∃ n, ns !! Z.to_nat i = Some n ∧ priqueue_at q i h = Some n.2.
Proof.
  intros Hreach.
  destruct (reachable_wf cmp q h Hreach) as (ns & Hwf & _).
  pose proof Hwf as ((Hr & Hc) & Hs & _).
  exists ns. split; [done|]. split; [by apply (cells_NoDup h)|].
  split; [done|]. intros i Hi. unfold priqueue_size in Hi.
  destruct (lookup_lt_is_Some_2 ns (Z.to_nat i)) as ([a c] & Hl); [lia|].
  exists (a, c). split; [done|].
  apply (priqueue_at_in_range q h ns i a c); [done|lia|done].
Qed.

Lemma length_insert_at (ns : list cell) (k : nat) (n : cell) :
  length (take k ns ++ n :: drop k ns) = S (length ns).
Proof. rewrite length_app. simpl. rewrite length_take, length_drop. lia. Qed.

Lemma offer_all_spec (items : list Z) :
  ∀ (q : priqueue_t) (h : heap) (ns : list cell),
    wf q h ns → size q + Z.of_nat (length items) ≤ INT_MAX →
    ∃ q' h' ns',
      offer_all malloc items q h = Some (q', h') ∧ wf q' h' ns' ∧
      comparer q' = comparer q ∧ ns'.*2 ≡ₚ items ++ ns.*2 ∧
      (consistent (comparer q) → Sorted (cle (comparer q)) ns.*2 →
       Sorted (cle (comparer q)) ns'.*2).
Proof.
  induction items as [|x items IH]; intros q h ns Hwf Hmax; simpl.
  - by exists q, h, ns.
  - destruct (priqueue_offer_spec malloc malloc_fresh q h ns x Hwf)
      as (q1 & h1 & Hrun & Hwf1 & Hcmp1); [simpl in Hmax; lia|].
    rewrite Hrun. simpl.
    destruct (IH q1 h1 _ Hwf1) as (q' & h' & ns' & Hall & Hwf' & Hcmp' & Hperm & Hs).
    { destruct Hwf1 as (_ & -> & _), Hwf as (_ & Hsz & _).
      rewrite length_insert_at. simpl in Hmax. lia. }
    exists q', h', ns'. split; [done|]. split; [done|]. split; [congruence|].
    split.
    + rewrite Hperm, fmap_snd_insert, <- Permutation_middle.
      by rewrite take_drop, Permutation_middle.
    + intros Hcons Hsorted. rewrite Hcmp1 in Hs. apply Hs; [done|].
      rewrite fmap_snd_insert. by apply Sorted_insert_pos.
Qed.

Lemma poll_n_spec (ns : list cell) :
  ∀ (q : priqueue_t) (h : heap),
    wf q h ns →
    ∃ q' h', poll_n (length ns) q h = Some (ns.*2, q', h') ∧ wf q' h' [].
Proof.
  induction ns as [|[a c] ns IH]; intros q h Hwf; simpl.
  - by exists q, h.
  - destruct (priqueue_poll_cons q h ns a c Hwf)
      as (q1 & h1 & Hrun & Hwf1 & _).
    rewrite Hrun. simpl.
    destruct (IH q1 h1 Hwf1) as (q' & h' & Hrun' & Hwf').
    rewrite Hrun'. simpl. by exists q', h'.
Qed.

(** C9.  Offering [n] items to a fresh queue and polling [n] times yields
    those items, each as often as it was offered, in an order in which
    every item may precede the next by the comparer; the queue is empty
    afterwards. *)
Theorem offer_poll_round_trip (cmp : pointer → pointer → Z) (items : list Z)
    (h0 : heap) :
  consistent cmp → Z.of_nat (length items) ≤ INT_MAX →
  ∃ q h out q' h',
    offer_all malloc items (priqueue_init cmp) h0 = Some (q, h) ∧
    poll_n (length items) q h = Some (out, q', h') ∧
    out ≡ₚ items ∧ Sorted (cle cmp) out ∧
    size q' = 0 ∧ root q' = NULL ∧ priqueue_poll q' h' = Some (NULL, q', h').
Proof.
  intros Hcons Hmax.
  destruct (offer_all_spec items (priqueue_init cmp) h0 [] (wf_init cmp h0))
    as (q & h & ns & Hall & Hwf & Hcmp & Hperm & Hs); [simpl; lia|].
  destruct (poll_n_spec ns q h Hwf) as (q' & h' & Hpoll & (Hr & _) & Hsz & _).
  rewrite app_nil_r in Hperm.
  exists q, h, ns.*2, q', h'. split; [done|].
  split; [by rewrite <- (Permutation_length Hperm), length_fmap|].
  split; [done|]. split; [apply Hs; [done|constructor]|].
  split; [done|]. split; [done|]. by apply priqueue_poll_empty.
Qed.

(** C5.  With a consistent comparer, the chain built by any sequence of
    [priqueue_offer] calls on a fresh queue is sorted: every entry may
    precede its successor, [cmp(a, b) <= 0].  Every call of
    [priqueue_offer], [priqueue_poll], [priqueue_remove] or
    [priqueue_remove_at] that returns on a sorted queue leaves a sorted
    queue; [priqueue_poll] and [priqueue_remove] always return, and
    [priqueue_remove_at] does at every positive index. *)
Theorem sorted_invariant (cmp : pointer → pointer → Z) :
  consistent cmp →
  (∀ (items : list Z) (h0 : heap),
     Z.of_nat (length items) ≤ INT_MAX →
     ∃ q h l, offer_all malloc items (priqueue_init cmp) h0 = Some (q, h) ∧
              repr q h l ∧ Sorted (cle cmp) l) ∧
  (∀ (q : priqueue_t) (h : heap) (l : list Z),
     comparer q = cmp → repr q h l → Sorted (cle cmp) l →
     (∀ o q' h', step malloc o q h = Some (q', h') →
                 ∃ l', repr q' h' l' ∧ Sorted (cle cmp) l') ∧
     is_Some (step malloc Poll q h) ∧
     (∀ ptr, is_Some (step malloc (Remove ptr) q h)) ∧
     (∀ index, 0 < index → is_Some (step malloc (RemoveAt index) q h))).
Proof.
  intros Hcons. split.
  - intros items h0 Hmax.
    destruct (offer_all_spec items (priqueue_init cmp) h0 [] (wf_init cmp h0))
      as (q & h & ns & Hall & Hwf & Hcmp & Hperm & Hs); [simpl; lia|].
    exists q, h, ns.*2. split; [done|]. split; [by exists ns|].
    apply Hs; [done|constructor].
  - intros q h l Hcmp (ns & Hwf & ->) Hs. subst cmp. split; [|split; [|split]].
    + intros o q' h' Hstep.
      destruct (step_wf o q q' h h' ns Hwf Hstep) as (ns' & Hwf' & _ & Hs').
      exists ns'.*2. split; [by exists ns'|]. by apply Hs'.
    + simpl. destruct ns as [|[a c] ns].
      * rewrite priqueue_poll_empty by (destruct Hwf as (_ & ? & _); done). done.
      * destruct (priqueue_poll_cons q h ns a c Hwf) as (? & ? & -> & _). done.
    + intros ptr. simpl.
      destruct (priqueue_remove_spec q h ns ptr Hwf) as (? & ? & -> & _). done.
    + intros index Hpos. simpl.
      destruct (decide (index >= size q)) as [Hge|Hlt].
      * by rewrite priqueue_remove_at_ge.
      * destruct (lookup_lt_is_Some_2 ns (Z.to_nat index)) as ([a c] & Hl).
        { destruct Hwf as (_ & ? & _). lia. }
        destruct (priqueue_remove_at_in_range q h ns index a c Hwf Hpos Hl)
          as (? & ? & -> & _). done.
Qed.

(** C4.  [priqueue_offer] splits the chain in two and puts the new cell
    between the parts: no payload of the first part is strictly greater
    than the item and the second part is empty or starts with a payload
    that is.  With a consistent comparer and a sorted chain no payload of
    the second part compares equal to the item, so the item stands behind
    every equal one; and an item [x2] that compares equal to [x1] and is
    offered right after it is placed behind the cell of [x1]. *)
Theorem priqueue_offer_position (q : priqueue_t) (h : heap) (ns : list cell)
    (x1 : pointer) :
  wf q h ns → size q < INT_MAX →
  ∃ ret q1 h1 before after,
    priqueue_offer malloc q x1 h = Some (ret, q1, h1) ∧
    ns = before ++ after ∧
    wf q1 h1 (before ++ (malloc h, x1) :: after) ∧
    Forall (λ n, comparer q n.2 x1 ≤ 0) before ∧
    (∀ n, head after = Some n → comparer q n.2 x1 > 0) ∧
    (consistent (comparer q) → Sorted (cle (comparer q)) ns.*2 →
     Forall (λ n, comparer q n.2 x1 ≠ 0) after) ∧
    (∀ x2, consistent (comparer q) → comparer q x1 x2 = 0 →
           size q1 < INT_MAX →
           ∃ ret2 q2 h2 n1 n2 n3,
             priqueue_offer malloc q1 x2 h1 = Some (ret2, q2, h2) ∧
             wf q2 h2 (n1 ++ (malloc h, x1) :: n2 ++ (malloc h1, x2) :: n3)).
Proof.
  intros Hwf Hlt.
  destruct (priqueue_offer_spec malloc malloc_fresh q h ns x1 Hwf Hlt)
    as (q1 & h1 & Hrun & Hwf1 & Hcmp1).
  set (k := insert_pos (comparer q) x1 ns.*2) in *.
  destruct (insert_pos_spec (comparer q) x1 ns.*2) as (Hbefore & Hafter).
  fold k in Hbefore, Hafter.
  rewrite <- fmap_take in Hbefore. rewrite <- fmap_drop in Hafter.
  apply (Forall_fmap snd (λ c, comparer q c x1 ≤ 0)) in Hbefore.
  exists (offer_ret k (length ns)), q1, h1, (take k ns), (drop k ns).
  split; [done|]. split; [by rewrite take_drop|]. split; [done|].
  split; [done|]. split; [|split].
  - intros n Hn. apply Hafter. destruct (drop k ns); [done|].
    simpl in *. congruence.
  - intros Hcons Hs. apply (Forall_fmap snd (λ c, comparer q c x1 ≠ 0)).
    rewrite fmap_drop. by apply insert_pos_after_not_equal.
  - intros x2 Hcons Heq Hlt1.
    destruct (priqueue_offer_spec malloc malloc_fresh q1 h1 _ x2 Hwf1 Hlt1)
      as (q2 & h2 & Hrun2 & Hwf2 & _).
    rewrite Hcmp1 in *.
    assert (Hk2 : insert_pos (comparer q) x2
                    (take k ns ++ (malloc h, x1) :: drop k ns).*2
                  = (length (take k ns) + 1
                     + insert_pos (comparer q) x2 (drop k ns).*2)%nat).
    { rewrite fmap_app, fmap_cons, cons_middle, (assoc_L (++)).
      rewrite (insert_pos_app (comparer q)).
      - rewrite length_app, length_fmap. done.
      - apply Forall_app. split; [|repeat constructor; simpl; lia].
        apply (Forall_fmap snd (λ c, comparer q c x2 ≤ 0)).
        eapply Forall_impl; [exact Hbefore|].
        intros n Hn. simpl in *.
        apply (cmp_le_trans _ Hcons n.2 x1 x2); [done|lia]. }
    rewrite Hk2, insert_after in Hwf2.
    eexists _, q2, h2, _, _, _. split; [exact Hrun2|exact Hwf2].
Qed.

End Sequences.

Section OfferIndex.

Variable malloc : heap → pointer.
Hypothesis malloc_fresh : ∀ h : heap, malloc h ≠ NULL ∧ h !! malloc h = None.

(** X17.  The index [priqueue_offer] returns against the index the item
    lands at: the item is stored at the scanned position [k] (the index of
    the first entry strictly greater than it); the value returned
    is [k] on an empty queue and when the item goes in front of an entry,
    and [size + 1], an index [priqueue_at] has nothing at, when the item
    is appended to a non-empty queue. *)
Lemma priqueue_offer_index (q : priqueue_t) (h : heap) (ns : list cell)
    (item : pointer) :
  wf q h ns → size q < INT_MAX →
  let k := insert_pos (comparer q) item ns.*2 in
  ∃ ret q' h',
    priqueue_offer malloc q item h = Some (ret, q', h') ∧
    priqueue_at q' (Z.of_nat k) h' = Some item ∧
    (ns = [] ∨ (k < length ns)%nat → ret = Z.of_nat k) ∧
    (ns ≠ [] → k = length ns →
     ret = size q + 1 ∧ priqueue_at q' ret h' = Some NULL).
Proof.
  intros Hwf Hlt k.
  destruct (priqueue_offer_spec malloc malloc_fresh q h ns item Hwf Hlt)
    as (q' & h' & Hrun & Hwf' & _). fold k in Hrun, Hwf'.
  pose proof (insert_pos_le (comparer q) item ns.*2) as Hk.
  rewrite length_fmap in Hk. fold k in Hk.
  exists (offer_ret k (length ns)), q', h'. split; [done|]. split; [|split].
  - apply (priqueue_at_in_range q' h' _ _ (malloc h) item Hwf'); [lia|].
    rewrite Nat2Z.id. apply list_lookup_middle. rewrite length_take. lia.
  - intros Hcase. unfold offer_ret. rewrite decide_True; [done|].
    destruct Hcase as [->|?]; [by left|by right].
  - intros Hne Hkn. unfold offer_ret. rewrite decide_False.
    + destruct Hwf as (_ & Hs & _). split; [lia|].
      apply priqueue_at_ge. destruct Hwf' as (_ & -> & _).
      rewrite length_insert_at. lia.
    + intros [H0|Hkl]; [|lia]. by destruct ns.
Qed.

End OfferIndex.


(** ** Single calls *)

Lemma wf_abac : wf q_abac h_abac [(10, 1); (20, 2); (30, 1); (40, 3)].
Proof.
  unfold wf, chain. simpl. repeat split; try done; vm_compute; congruence.
Qed.

Lemma wf_123 : wf q_123 h_123 [(10, 1); (20, 2); (30, 3)].
Proof.
  unfold wf, chain. simpl. repeat split; try done; vm_compute; congruence.
Qed.

Lemma cmp_int_consistent : consistent cmp_int.
Proof. split; unfold cmp_int; intros; lia. Qed.

(** On a queue whose [size] is 0, [priqueue_peek], [priqueue_poll]
    and [priqueue_at] at index 0 return [NULL], [priqueue_remove] returns
    0 and [priqueue_remove_at] (at any index from 0 on) returns [NULL];
    the calls that can write hand back the header and the heap they were
    given. *)
Theorem empty_queue_behaviour (q : priqueue_t) (h : heap) :
  size q = 0 →
  priqueue_peek q h = Some NULL ∧
  priqueue_poll q h = Some (NULL, q, h) ∧
  priqueue_at q 0 h = Some NULL ∧
  (∀ ptr, priqueue_remove q ptr h = Some (0, q, h)) ∧
  (∀ index, 0 ≤ index → priqueue_remove_at q index h = Some (NULL, q, h)).
Proof.
  intros Hs. repeat split.
  - unfold priqueue_peek. by rewrite bool_decide_eq_true_2.
  - by apply priqueue_poll_empty.
  - apply priqueue_at_ge. lia.
  - intros ptr. unfold priqueue_remove. rewrite Hs. simpl.
    rewrite Hs. simpl. by rewrite set_size_id.
  - intros index Hi. apply priqueue_remove_at_ge. lia.
Qed.

(** C7.  On the empty queue [priqueue_peek], [priqueue_poll] and
    [priqueue_at] at index 0 return [NULL], [priqueue_remove] returns 0
    and [priqueue_remove_at] at index 0 returns [NULL], each leaving the
    header and the heap as they were.  [priqueue_remove_at] at index -1
    does not: the index passes the test of line 201, the loop does not
    run, and line 212 reads [now->content] through the null [root]. *)
Theorem empty_queue_remove_at_negative :
  size (priqueue_init cmp_int) = 0 ∧
  priqueue_remove_at (priqueue_init cmp_int) (-1) ∅ = None ∧
  priqueue_peek (priqueue_init cmp_int) ∅ = Some NULL ∧
  priqueue_poll (priqueue_init cmp_int) ∅
  = Some (NULL, priqueue_init cmp_int, ∅) ∧
  priqueue_at (priqueue_init cmp_int) 0 ∅ = Some NULL ∧
  priqueue_remove (priqueue_init cmp_int) 7 ∅
  = Some (0, priqueue_init cmp_int, ∅) ∧
  priqueue_remove_at (priqueue_init cmp_int) 0 ∅
  = Some (NULL, priqueue_init cmp_int, ∅).
Proof. repeat split; vm_compute; reflexivity. Qed.

Lemma empty_queue_behaviour_witness :
  size (priqueue_init (λ a b, a - b)) = 0 ∧
  priqueue_poll (priqueue_init (λ a b, a - b)) ∅
  = Some (NULL, priqueue_init (λ a b, a - b), ∅).
Proof.
  split; [reflexivity|].
  apply (empty_queue_behaviour (priqueue_init (λ a b, a - b)) ∅).
  reflexivity.
Defined.

(** C10.  When no entry of the queue holds [ptr], [priqueue_remove]
    returns 0 and the header and the heap (so [size], [root] and every
    node's [content] and [next]) are the ones it was given. *)
Theorem priqueue_remove_absent_unchanged (q : priqueue_t) (h : heap)
    (ns : list cell) (ptr : pointer) :
  wf q h ns → ptr ∉ ns.*2 →
  priqueue_remove q ptr h = Some (0, q, h).
Proof.
  intros ((Hr & Hc) & Hs & Hmax) Hnin. unfold priqueue_remove.
  rewrite Hs, Nat2Z.id, Hr, (remove_loop_absent ptr ns q h NULL 0 Hc Hnin).
  rewrite int_checked_ok by (unfold INT_MIN, INT_MAX in *; lia). simpl.
  by rewrite set_size_id by lia.
Qed.

Lemma priqueue_remove_absent_unchanged_witness :
  priqueue_remove q_abac 7 h_abac = Some (0, q_abac, h_abac).
Proof.
  apply (priqueue_remove_absent_unchanged q_abac h_abac
           [(10, 1); (20, 2); (30, 1); (40, 3)] 7 wf_abac).
  vm_compute. intros H. repeat (apply elem_of_cons in H as [H|H]; [discriminate|]).
  by apply elem_of_nil in H.
Defined.

(** C6.  [priqueue_remove] unlinks exactly the cells whose payload is the
    pointer [ptr], wherever they stand, and keeps the other cells in their
    order; it returns how many it unlinked, [size] drops by that number,
    and the comparer plays no part: under any other comparer the same
    count, the same [size] and [root] and the same heap result. *)
Theorem priqueue_remove_all (q : priqueue_t) (h : heap) (ns : list cell)
    (ptr : pointer) :
  wf q h ns →
  ∃ q' h',
    priqueue_remove q ptr h
    = Some (Z.of_nat (length (filter (λ c, c = ptr) ns.*2)), q', h') ∧
    wf q' h' (filter (λ n, n.2 ≠ ptr) ns) ∧
    repr q' h' (filter (λ c, c ≠ ptr) ns.*2) ∧
    size q' = size q - Z.of_nat (length (filter (λ c, c = ptr) ns.*2)) ∧
    ∀ cmp, priqueue_remove (with_comparer cmp q) ptr h
           = Some (Z.of_nat (length (filter (λ c, c = ptr) ns.*2)),
                   with_comparer cmp q', h').
Proof.
  intros Hwf.
  destruct (priqueue_remove_spec q h ns ptr Hwf)
    as (q' & h' & Hrun & Hwf' & Hs' & _).
  rewrite length_filter_snd in Hrun, Hs'.
  exists q', h'. split; [done|]. split; [done|]. split; [|split; [done|]].
  - exists (filter (λ n, n.2 ≠ ptr) ns). split; [done|].
    by rewrite fmap_snd_filter.
  - intros cmp. unfold priqueue_remove in *. simpl.
    by rewrite remove_loop_comparer, Hrun.
Qed.

Lemma priqueue_remove_all_witness :
  ∃ q' h',
    priqueue_remove q_abac 1 h_abac = Some (2, q', h') ∧
    wf q' h' [(20, 2); (40, 3)] ∧
    repr q' h' [2; 3] ∧
    size q' = 2 ∧
    ∀ cmp, priqueue_remove (with_comparer cmp q_abac) 1 h_abac
           = Some (2, with_comparer cmp q', h').
Proof.
  exact (priqueue_remove_all q_abac h_abac
           [(10, 1); (20, 2); (30, 1); (40, 3)] 1 wf_abac).
Defined.

(** C3.  [priqueue_at] returns [NULL] for an index from [size] on, and the
    payload at the index for an index in range; the heap is only read.  An
    index below 0 passes the test of line 141: on the chain [1, 2, 1, 3]
    index -1 yields the payload of the head instead of [NULL], and on the
    empty queue it reads through the null [root]. *)
Theorem priqueue_at_negative_index :
  priqueue_at q_abac (-1) h_abac = Some 1 ∧
  priqueue_at (priqueue_init cmp_int) (-1) ∅ = None ∧
  priqueue_at q_abac 4 h_abac = Some NULL ∧
  priqueue_at q_abac 3 h_abac = Some 3.
Proof. repeat split; vm_compute; reflexivity. Qed.

(** C2.  [priqueue_remove_at] at index 0 of a non-empty queue, and at a
    negative index, writes [last->next] while [last] is still [NULL]
    (line 213): undefined behaviour.  At an index from 1 to [size - 1] it
    unlinks that cell and returns its payload, and from [size] on it
    returns [NULL]. *)
Theorem priqueue_remove_at_front :
  priqueue_remove_at q_abac 0 h_abac = None ∧
  priqueue_remove_at q_abac (-1) h_abac = None ∧
  priqueue_remove_at q_abac 4 h_abac = Some (NULL, q_abac, h_abac) ∧
  priqueue_remove_at q_abac 1 h_abac
  = Some (2, mkqueue 3 10 cmp_int,
          <[10 := mknode 1 30]>
            (<[30 := mknode 1 40]> (<[40 := mknode 3 NULL]> ∅))).
Proof. repeat split; vm_compute; reflexivity. Qed.

(** C1.  Offering 1 and then 2 to a fresh queue: the second call appends
    at index 1 and returns 2 (the counter is incremented once more on line
    82), so [priqueue_at] at the returned index finds nothing while the
    item sits at index 1. *)
Theorem priqueue_offer_append_index :
  priqueue_offer bump_alloc (priqueue_init cmp_int) 1 ∅
  = Some (0, mkqueue 1 1 cmp_int, <[1 := mknode 1 NULL]> ∅) ∧
  priqueue_offer bump_alloc (mkqueue 1 1 cmp_int) 2 (<[1 := mknode 1 NULL]> ∅)
  = Some (2, mkqueue 2 1 cmp_int,
          <[1 := mknode 1 2]> (<[2 := mknode 2 NULL]> ∅)) ∧
  priqueue_at (mkqueue 2 1 cmp_int) 2
    (<[1 := mknode 1 2]> (<[2 := mknode 2 NULL]> ∅)) = Some NULL ∧
  priqueue_at (mkqueue 2 1 cmp_int) 1
    (<[1 := mknode 1 2]> (<[2 := mknode 2 NULL]> ∅)) = Some 2.
Proof. repeat split; vm_compute; reflexivity. Qed.

(** ** Concrete runs *)

Lemma priqueue_offer_position_witness :
  wf q_123 h_123 [(10, 1); (20, 2); (30, 3)] ∧ size q_123 < INT_MAX ∧
  ∃ ret q1 h1 before after,
    priqueue_offer bump_alloc q_123 2 h_123 = Some (ret, q1, h1) ∧
    [(10, 1); (20, 2); (30, 3)] = before ++ after ∧
    wf q1 h1 (before ++ (bump_alloc h_123, 2) :: after) ∧
    Forall (λ n, comparer q_123 n.2 2 ≤ 0) before ∧
    (∀ n, head after = Some n → comparer q_123 n.2 2 > 0).
Proof.
  split; [exact wf_123|]. split; [reflexivity|].
  destruct (priqueue_offer_position bump_alloc bump_alloc_fresh q_123 h_123
              [(10, 1); (20, 2); (30, 3)] 2 wf_123 eq_refl)
    as (ret & q1 & h1 & before & after & H1 & H2 & H3 & H4 & H5 & _).
  by exists ret, q1, h1, before, after.
Defined.

Lemma sorted_invariant_witness :
  consistent cmp_int ∧
  ∃ q h l,
    offer_all bump_alloc [5; 3; 8; 3] (priqueue_init cmp_int) ∅ = Some (q, h) ∧
    repr q h l ∧ Sorted (cle cmp_int) l.
Proof.
  split; [exact cmp_int_consistent|].
  destruct (sorted_invariant bump_alloc bump_alloc_fresh cmp_int
              cmp_int_consistent) as (Hoffers & _).
  apply (Hoffers [5; 3; 8; 3] ∅). vm_compute. discriminate.
Defined.

Lemma size_consistency_witness :
  reachable bump_alloc cmp_int (mkqueue 1 1 cmp_int) (<[1 := mknode 5 NULL]> ∅) ∧
  ∃ ns, chain (<[1 := mknode 5 NULL]> ∅) 1 ns ∧ NoDup ns.*1 ∧
        1 = Z.of_nat (length ns) ∧
        ∀ i, 0 ≤ i < 1 →
             ∃ n, ns !! Z.to_nat i = Some n ∧
                  priqueue_at (mkqueue 1 1 cmp_int) i (<[1 := mknode 5 NULL]> ∅)
                  = Some n.2.
Proof.
  assert (Hreach : reachable bump_alloc cmp_int (mkqueue 1 1 cmp_int)
                     (<[1 := mknode 5 NULL]> ∅)).
  { apply (reachable_step bump_alloc cmp_int (Offer 5) (priqueue_init cmp_int)
             _ ∅ _ (reachable_init bump_alloc cmp_int ∅)).
    vm_compute. reflexivity. }
  split; [exact Hreach|].
  exact (size_consistency bump_alloc bump_alloc_fresh cmp_int _ _ Hreach).
Defined.

Lemma offer_poll_round_trip_witness :
  consistent cmp_int ∧ Z.of_nat (length [5; 3; 8; 3]) ≤ INT_MAX ∧
  ∃ q h out q' h',
    offer_all bump_alloc [5; 3; 8; 3] (priqueue_init cmp_int) ∅ = Some (q, h) ∧
    poll_n 4 q h = Some (out, q', h') ∧
    out ≡ₚ [5; 3; 8; 3] ∧ Sorted (cle cmp_int) out ∧
    size q' = 0 ∧ root q' = NULL ∧ priqueue_poll q' h' = Some (NULL, q', h').
Proof.
  split; [exact cmp_int_consistent|]. split; [vm_compute; discriminate|].
  apply (offer_poll_round_trip bump_alloc bump_alloc_fresh cmp_int [5; 3; 8; 3] ∅
           cmp_int_consistent).
  vm_compute. discriminate.
Defined.

(** The scenario of the specification: offering 5, 3, 8, 3 under the
    ascending comparer gives the order 3, 3, 5, 8 with the first-offered 3
    (the node allocated second) ahead of the other; polling returns that
    order, and [priqueue_remove_at] at index 2 returns 5 and leaves
    3, 3, 8. *)
Example concrete_scenario :
  ∃ q h,
    offer_all bump_alloc [5; 3; 8; 3] (priqueue_init cmp_int) ∅ = Some (q, h) ∧
    wf q h [(2, 3); (4, 3); (1, 5); (3, 8)] ∧
    priqueue_at q 1 h = Some 3 ∧
    (∃ q' h', priqueue_remove_at q 2 h = Some (5, q', h') ∧
              wf q' h' [(2, 3); (4, 3); (3, 8)]) ∧
    (∃ q' h', poll_n 4 q h = Some ([3; 3; 5; 8], q', h')).
Proof.
  eexists _, _. split; [vm_compute; reflexivity|].
  split; [unfold wf, chain; simpl; repeat split; try done; vm_compute; congruence|].
  split; [vm_compute; reflexivity|].
  split; eexists _, _; [split; [vm_compute; reflexivity|]|vm_compute; reflexivity].
  unfold wf, chain; simpl; repeat split; try done; vm_compute; congruence.
Qed.

(** ** Memory the queue owns *)

Lemma store_next_frame (h h' : heap) (p v b : pointer) :
  store_next h p v = Some h' → p = NULL ∨ b ≠ p → h' !! b = h !! b.
Proof.
  unfold store_next, load. case_bool_decide as Hp; [done|].
  destruct (h !! p); simpl; [|done].
  intros [= <-] [?|Hne]; [done|]. by rewrite lookup_insert_ne.
Qed.

(** A chain fixes the nodes at its addresses. *)
Lemma cells_agree (h h' : heap) (ns : list cell) (e a : pointer) :
  cells h ns e → cells h' ns e → a ∈ ns.*1 → h !! a = h' !! a.
Proof.
  induction ns as [|[b c] ns IH]; simpl; intros Hc Hc' Hin.
  - by apply elem_of_nil in Hin.
  - destruct Hc as (_ & Hl & Hc), Hc' as (_ & Hl' & Hc').
    destruct (decide (a = b)) as [->|Hne]; [congruence|].
    apply elem_of_cons in Hin as [?|Hin]; [done|]. by apply IH.
Qed.

Lemma cells_elem_of (h : heap) (ns : list cell) (e a c : pointer) :
  cells h ns e → (a, c) ∈ ns → ∃ nx, h !! a = Some (mknode c nx).
Proof.
  induction ns as [|[b d] ns IH]; simpl; intros Hc Hin.
  - by apply elem_of_nil in Hin.
  - destruct Hc as (_ & Hl & Hc).
    apply elem_of_cons in Hin as [[= -> ->]|Hin]; eauto.
Qed.

Lemma cells_length_le (ns : list cell) :
  ∀ h : heap, cells h ns NULL → (length ns ≤ base.size h)%nat.
Proof.
  induction ns as [|[a c] ns IH]; intros h Hc; simpl; [lia|].
  apply (cells_middle h []) in Hc as (_ & _ & Hl & Hc & _ & Hnin & _).
  pose proof (IH (delete a h) (cells_delete_ne _ _ _ _ Hnin Hc)) as Hle.
  rewrite map_size_delete, Hl in Hle.
  assert (base.size h ≠ 0%nat); [|lia].
  intros Hz. apply map_size_empty_inv in Hz. subst h.
  by rewrite lookup_empty in Hl.
Qed.

(** More guard tests than the heap has nodes are never used up: the
    result of the loop of [priqueue_destroy] does not depend on the
    bound. *)
Lemma destroy_loop_fuel (n : nat) :
  ∀ (m : nat) (h : heap) (now : pointer),
    (base.size h < n)%nat → (base.size h < m)%nat →
    destroy_loop n h now = destroy_loop m h now.
Proof.
  induction n as [|n IH]; intros m h now Hn Hm; [lia|].
  destruct m as [|m]; [lia|]. simpl.
  case_bool_decide as Hnow; [|done].
  unfold load. rewrite bool_decide_eq_false_2 by done.
  destruct (h !! now) as [nd|] eqn:Hl; simpl; [|done].
  unfold free. rewrite bool_decide_eq_false_2, Hl by done. simpl.
  assert (base.size h ≠ 0%nat).
  { intros Hz. apply map_size_empty_inv in Hz. subst h.
    by rewrite lookup_empty in Hl. }
  apply IH; rewrite map_size_delete, Hl; lia.
Qed.

Lemma destroy_loop_chain (ns : list cell) :
  ∀ (h : heap) (n : nat),
    cells h ns NULL → (length ns < n)%nat →
    ∃ h', destroy_loop n h (hd_addr ns NULL) = Some h' ∧
          (∀ a, a ∈ ns.*1 → h' !! a = None) ∧
          (∀ b, b ∉ ns.*1 → h' !! b = h !! b).
Proof.
  induction ns as [|[a c] ns IH]; intros h n Hc Hlen.
  - destruct n as [|n]; [lia|]. simpl. exists h.
    split; [done|]. split; [|done]. intros a Ha. by apply elem_of_nil in Ha.
  - destruct n as [|n]; [simpl in Hlen; lia|].
    apply (cells_middle h []) in Hc as (_ & Hn & Hl & Hc & _ & Hnin & _).
    cbn [destroy_loop hd_addr fst]. rewrite bool_decide_eq_true_2 by done.
    rewrite (load_cell _ _ _ _ Hn Hl). run.
    unfold free. rewrite bool_decide_eq_false_2, Hl by done. run.
    destruct (IH (delete a h) n (cells_delete_ne _ _ _ _ Hnin Hc))
      as (h' & Hrun & Hfreed & Hframe); [simpl in Hlen; lia|].
    exists h'. split; [done|]. rewrite fmap_cons. cbn [fst]. split.
    + intros b Hb. apply elem_of_cons in Hb as [->|Hb]; [|by apply Hfreed].
      rewrite (Hframe a Hnin). apply lookup_delete_eq.
    + intros b Hb. apply not_elem_of_cons in Hb as (Hne & Hb).
      rewrite (Hframe b Hb). by apply lookup_delete_ne.
Qed.

Lemma priqueue_destroy_spec (q : priqueue_t) (h : heap) (ns : list cell) :
  wf q h ns →
  ∃ h', priqueue_destroy q h = Some h' ∧
        (∀ a, a ∈ ns.*1 → h' !! a = None) ∧
        (∀ b, b ∉ ns.*1 → h' !! b = h !! b).
Proof.
  intros ((Hr & Hc) & _). unfold priqueue_destroy. rewrite Hr.
  apply destroy_loop_chain; [done|].
  pose proof (cells_length_le ns h Hc). lia.
Qed.

(** X12.  [priqueue_destroy] on a well-formed queue returns, frees every
    node of the chain and leaves every other address of the heap as it
    was. *)
Theorem priqueue_destroy_frees_chain (q : priqueue_t) (h : heap)
    (ns : list cell) :
  wf q h ns →
  ∃ h', priqueue_destroy q h = Some h' ∧
        (∀ a, a ∈ ns.*1 → h' !! a = None) ∧
        (∀ b, b ∉ ns.*1 → h' !! b = h !! b).
Proof.
  intros ((Hr & Hc) & _). unfold priqueue_destroy. rewrite Hr.
  apply destroy_loop_chain; [done|].
  pose proof (cells_length_le ns h Hc). lia.
Qed.

Lemma priqueue_destroy_frees_chain_witness :
  ∃ h', priqueue_destroy q_abac h_abac = Some h' ∧
        (∀ a, a ∈ [(10, 1); (20, 2); (30, 1); (40, 3)].*1 → h' !! a = None) ∧
        (∀ b, b ∉ [(10, 1); (20, 2); (30, 1); (40, 3)].*1 →
              h' !! b = h_abac !! b).
Proof.
  exact (priqueue_destroy_frees_chain q_abac h_abac
           [(10, 1); (20, 2); (30, 1); (40, 3)] wf_abac).
Defined.

(** X13.  [priqueue_destroy] leaves [root] and [size] as they were, so
    after it a queue that was not empty points at a freed node: every
    further call of [priqueue_peek], [priqueue_poll], [priqueue_at] and
    [priqueue_remove_at] (below [size]), [priqueue_remove] and
    [priqueue_destroy] itself reads freed memory. *)
Theorem use_after_destroy (q : priqueue_t) (h h' : heap) (ns : list cell) :
  wf q h ns → ns ≠ [] → priqueue_destroy q h = Some h' →
  priqueue_peek q h' = None ∧
  priqueue_poll q h' = None ∧
  (∀ index, index < size q → priqueue_at q index h' = None) ∧
  (∀ ptr, priqueue_remove q ptr h' = None) ∧
  (∀ index, index < size q → priqueue_remove_at q index h' = None) ∧
  priqueue_destroy q h' = None.
Proof.
  intros Hwf Hne Hrun.
  destruct (priqueue_destroy_spec q h ns Hwf) as (h'' & Hrun' & Hfreed & _).
  rewrite Hrun in Hrun'. injection Hrun' as <-.
  destruct Hwf as ((Hr & Hc) & Hs & _).
  destruct ns as [|[a c] ns]; [done|]. simpl in Hr, Hs.
  destruct Hc as (Hn & _). simpl in Hn.
  assert (Hload : load h' (root q) = None).
  { unfold load. rewrite Hr, bool_decide_eq_false_2 by done.
    apply Hfreed. rewrite fmap_cons. by left. }
  assert (Hwalk : ∀ n last, walk n h' (root q) last
                            = match n with O => Some (root q, last) | S _ => None end).
  { intros [|n] last; simpl; [done|]. by rewrite Hload. }
  split; [|split; [|split; [|split; [|split]]]].
  - unfold priqueue_peek. rewrite bool_decide_eq_false_2 by lia.
    by rewrite Hload.
  - unfold priqueue_poll. rewrite bool_decide_eq_false_2 by lia.
    by rewrite Hload.
  - intros index Hi. unfold priqueue_at.
    rewrite bool_decide_eq_false_2 by lia. rewrite Hwalk.
    destruct (Z.to_nat index); simpl; [by rewrite Hload|done].
  - intros ptr. unfold priqueue_remove.
    destruct (Z.to_nat (size q)) as [|n] eqn:Hsz; [lia|].
    simpl. by rewrite Hload.
  - intros index Hi. unfold priqueue_remove_at.
    rewrite bool_decide_eq_false_2 by lia. rewrite Hwalk.
    destruct (Z.to_nat index); simpl; [by rewrite Hload|done].
  - unfold priqueue_destroy. simpl.
    rewrite bool_decide_eq_true_2 by (rewrite Hr; done). by rewrite Hload.
Qed.

Lemma use_after_destroy_witness :
  ∃ h', priqueue_destroy q_abac h_abac = Some h' ∧
        priqueue_peek q_abac h' = None ∧ priqueue_destroy q_abac h' = None.
Proof.
  eexists. split; [vm_compute; reflexivity|].
  pose proof (use_after_destroy q_abac h_abac _
                [(10, 1); (20, 2); (30, 1); (40, 3)] wf_abac
                ltac:(discriminate) eq_refl) as (Hpeek & _ & _ & _ & _ & Hd).
  split; [exact Hpeek|exact Hd].
Defined.

(** The loop of [priqueue_offer] writes only to the new node, to [last]
    and to nodes of the chain it walks. *)
Lemma offer_loop_frame (node : pointer) (n : nat) :
  ∀ (q : priqueue_t) (h : heap) (suf : list cell) (counter last : Z)
    (r : Z) (q' : priqueue_t) (h' : heap),
    cells h suf NULL →
    offer_loop n q node h counter (hd_addr suf NULL) last = Some (r, q', h') →
    ∀ b, b ≠ node → last = NULL ∨ b ≠ last → b ∉ suf.*1 → h' !! b = h !! b.
Proof.
  induction n as [|n IH]; intros q h suf counter last r q' h' Hc Hrun b Hbn Hbl Hbs.
  - simpl in Hrun.
    destruct (store_next h last node) as [h1|] eqn:Hst; simpl in Hrun; [|done].
    destruct (int_checked (counter + 1)); simpl in Hrun; [|done].
    destruct (int_checked (size q + 1)); simpl in Hrun; [|done].
    injection Hrun as _ _ <-. by apply (store_next_frame _ _ _ _ _ Hst).
  - destruct suf as [|[a c] suf]; [done|].
    destruct Hc as (Hn & Hl & Hc). simpl in Hn, Hl.
    rewrite fmap_cons in Hbs. apply not_elem_of_cons in Hbs as (Hba & Hbs).
    cbn [offer_loop hd_addr fst] in Hrun.
    rewrite (load_cell _ _ _ _ Hn Hl) in Hrun. cbn [mbind option_bind] in Hrun.
    destruct (load h node) as [nd|]; cbn [mbind option_bind] in Hrun; [|done].
    cbn [content next] in Hrun.
    case_bool_decide.
    + case_bool_decide.
      * destruct (store_next h node a) as [h1|] eqn:Hst; simpl in Hrun; [|done].
        destruct (int_checked _); simpl in Hrun; [|done].
        injection Hrun as _ _ <-.
        apply (store_next_frame _ _ _ _ _ Hst). by right.
      * destruct (store_next h last node) as [h1|] eqn:Hst1; simpl in Hrun; [|done].
        destruct (store_next h1 node a) as [h2|] eqn:Hst2; simpl in Hrun; [|done].
        destruct (int_checked _); simpl in Hrun; [|done].
        injection Hrun as _ _ <-.
        rewrite (store_next_frame _ _ _ _ _ Hst2) by (by right).
        by apply (store_next_frame _ _ _ _ _ Hst1).
    + destruct (int_checked (counter + 1)); cbn [mbind option_bind] in Hrun; [|done].
      apply (IH q h suf _ a r q' h' Hc Hrun); [done|by right|done].
Qed.

(** The loop of [priqueue_remove] writes only to [last] and to nodes of
    the chain it walks, and frees every node that holds [ptr]. *)
Lemma remove_loop_frame (ptr : pointer) (n : nat) :
  ∀ (q : priqueue_t) (h : heap) (suf : list cell) (last counter : Z)
    (r : Z) (q' : priqueue_t) (h' : heap),
    cells h suf NULL → last ∉ suf.*1 → (length suf ≤ n)%nat →
    remove_loop n q ptr h (hd_addr suf NULL) last counter = Some (r, q', h') →
    (∀ b, last = NULL ∨ b ≠ last → b ∉ suf.*1 → h' !! b = h !! b) ∧
    (∀ a, (a, ptr) ∈ suf → h' !! a = None).
Proof.
  induction n as [|n IH];
    intros q h suf last counter r q' h' Hc Hlast Hlen Hrun.
  - destruct suf; [|simpl in Hlen; lia]. simpl in Hrun.
    destruct (int_checked _); simpl in Hrun; [|done]. injection Hrun as _ _ <-.
    split; [done|]. intros a Ha. by apply elem_of_nil in Ha.
  - destruct suf as [|[a c] suf]; [done|].
    apply (cells_middle h []) in Hc as (_ & Hn & Hl & Hc & _ & Hnin & _).
    rewrite fmap_cons in Hlast. apply not_elem_of_cons in Hlast as (Hla & Hlast).
    cbn [remove_loop hd_addr fst] in Hrun.
    rewrite (load_cell _ _ _ _ Hn Hl) in Hrun.
    cbn [mbind option_bind content next] in Hrun.
    case_bool_decide as Hcp.
    + assert (Hstep : ∃ q1 h1,
                 (∀ b, last = NULL ∨ b ≠ last → h1 !! b = h !! b) ∧
                 cells h1 suf NULL ∧
                 h1 !! a = Some (mknode c (hd_addr suf NULL)) ∧
                 remove_loop n q1 ptr (delete a h1) (hd_addr suf NULL) last
                   (counter + 1) = Some (r, q', h')).
      { case_bool_decide.
        - cbn [mbind option_bind] in Hrun.
          rewrite (load_cell _ _ _ _ Hn Hl) in Hrun.
          cbn [mbind option_bind content next] in Hrun.
          unfold free in Hrun. rewrite bool_decide_eq_false_2, Hl in Hrun by done.
          cbn [mbind option_bind] in Hrun.
          destruct (int_checked (counter + 1)) as [c1|] eqn:Hchk;
            cbn [mbind option_bind] in Hrun; [|done].
          unfold int_checked in Hchk. case_bool_decide; [|done].
          injection Hchk as <-. by eexists _, h.
        - destruct (store_next h last (hd_addr suf NULL)) as [h1|] eqn:Hst;
            cbn [mbind option_bind] in Hrun; [|done].
          assert (Hl1 : h1 !! a = Some (mknode c (hd_addr suf NULL))).
          { by rewrite (store_next_frame _ _ _ _ a Hst)
              by (right; simpl in Hla; congruence). }
          rewrite (load_cell _ _ _ _ Hn Hl1) in Hrun.
          cbn [mbind option_bind content next] in Hrun.
          unfold free in Hrun. rewrite bool_decide_eq_false_2, Hl1 in Hrun by done.
          cbn [mbind option_bind] in Hrun.
          destruct (int_checked (counter + 1)) as [c1|] eqn:Hchk;
            cbn [mbind option_bind] in Hrun; [|done].
          unfold int_checked in Hchk. case_bool_decide; [|done].
          injection Hchk as <-. exists q, h1. split; [|split; [|done]].
          + intros b Hb. by apply (store_next_frame _ _ _ _ _ Hst).
          + unfold store_next in Hst. destruct (load h last); simpl in Hst; [|done].
            injection Hst as <-. by apply cells_insert_ne. }
      destruct Hstep as (q1 & h1 & Hfr1 & Hc1 & Hl1 & Hrun1).
      destruct (IH q1 (delete a h1) suf last (counter + 1) r q' h'
                  (cells_delete_ne _ _ _ _ Hnin Hc1) Hlast
                  ltac:(simpl in Hlen; lia) Hrun1) as (Hframe & Hfreed).
      split.
      * intros b Hbl Hbs. rewrite fmap_cons in Hbs.
        apply not_elem_of_cons in Hbs as (Hba & Hbs).
        rewrite (Hframe b Hbl Hbs), lookup_delete_ne by done. by apply Hfr1.
      * intros a' Ha'. apply elem_of_cons in Ha' as [[= -> _]|Ha'].
        -- rewrite (Hframe a) by (done || (right; simpl in Hla; congruence)).
           apply lookup_delete_eq.
        -- by apply Hfreed.
    + destruct (IH q h suf a counter r q' h' Hc Hnin
                  ltac:(simpl in Hlen; lia) Hrun) as (Hframe & Hfreed).
      split.
      * intros b Hbl Hbs. rewrite fmap_cons in Hbs.
        apply not_elem_of_cons in Hbs as (Hba & Hbs).
        apply Hframe; [by right|done].
      * intros a' Ha'. apply elem_of_cons in Ha' as [[= -> ->]|Ha']; [done|].
        by apply Hfreed.
Qed.

Lemma cells_not_NULL (h : heap) (ns : list cell) (e : pointer) :
  cells h ns e → NULL ∉ ns.*1.
Proof. intros Hc Hin. by destruct (cells_in_heap _ _ _ _ Hc Hin). Qed.

Lemma priqueue_remove_frame (q q' : priqueue_t) (h h' : heap)
    (ns : list cell) (ptr r : Z) :
  wf q h ns → priqueue_remove q ptr h = Some (r, q', h') →
  (∀ b, b ∉ ns.*1 → h' !! b = h !! b) ∧
  (∀ a, (a, ptr) ∈ ns → h' !! a = None).
Proof.
  intros ((Hr & Hc) & Hs & _) Hrun. unfold priqueue_remove in Hrun.
  rewrite Hs, Nat2Z.id, Hr in Hrun.
  destruct (remove_loop_frame ptr (length ns) q h ns NULL 0 r q' h' Hc
              (cells_not_NULL _ _ _ Hc) ltac:(lia) Hrun) as (Hframe & Hfreed).
  split; [|done]. intros b Hb. apply Hframe; [by left|done].
Qed.

Lemma priqueue_remove_at_frame (q q' : priqueue_t) (h h' : heap)
    (ns : list cell) (index r : Z) :
  wf q h ns → priqueue_remove_at q index h = Some (r, q', h') →
  (∀ b, b ∉ ns.*1 → h' !! b = h !! b) ∧
  (∀ a c, index < size q → ns !! Z.to_nat index = Some (a, c) →
          h' !! a = None).
Proof.
  intros Hwf Hrun.
  destruct (decide (index >= size q)) as [Hge|Hlt].
  { rewrite priqueue_remove_at_ge in Hrun by done. injection Hrun as _ _ <-.
    split; [done|]. intros; lia. }
  destruct (decide (0 < index)) as [Hpos|Hnpos].
  2:{ rewrite (priqueue_remove_at_nonpositive q h ns) in Hrun by (done || lia).
      done. }
  pose proof Hwf as ((Hr & Hc) & Hs & _).
  destruct (lookup_lt_is_Some_2 ns (Z.to_nat index)) as ([a c] & Hl); [lia|].
  unfold priqueue_remove_at in Hrun.
  rewrite bool_decide_eq_false_2 in Hrun by lia.
  pose proof (take_drop_middle _ _ _ Hl) as E.
  pose proof (length_take_le ns (Z.to_nat index) ltac:(lia)) as Hlen.
  revert E Hlen Hl.
  generalize (take (Z.to_nat index) ns) (drop (S (Z.to_nat index)) ns).
  intros pre suf E Hlen Hl. subst ns.
  rewrite Hr, <- Hlen, (walk_cells _ _ _ _ _ Hc) in Hrun. simpl in Hrun.
  destruct (last pre) as [[la lc]|] eqn:Hlast; simpl in Hrun.
  2:{ apply last_None in Hlast. rewrite Hlast in Hlen. simpl in Hlen. lia. }
  apply last_Some in Hlast as (pre' & ->).
  pose proof (cells_unlink _ _ _ _ _ _ _ Hc) as (Hln & Hne & Hll & _).
  apply cells_middle in Hc as (_ & Hn & Hla & _).
  rewrite (load_cell _ _ _ _ Hn Hla) in Hrun. simpl in Hrun.
  unfold store_next in Hrun. rewrite (load_cell _ _ _ _ Hln Hll) in Hrun.
  simpl in Hrun. unfold free in Hrun.
  rewrite bool_decide_eq_false_2 in Hrun by done.
  rewrite lookup_insert_ne, Hla in Hrun by done. simpl in Hrun.
  destruct (int_checked _); simpl in Hrun; [|done]. injection Hrun as _ _ <-.
  split.
  - intros b Hb. rewrite !fmap_app in Hb. simpl in Hb.
    rewrite lookup_delete_ne, lookup_insert_ne; [done| |];
      intros ->; apply Hb; set_solver.
  - intros a' c' _ Hl'. rewrite Hl in Hl'. injection Hl' as <- <-.
    apply lookup_delete_eq.
Qed.

Lemma elem_of_insert_at (ns : list cell) (k : nat) (a m item : pointer) :
  a ∈ (take k ns ++ (m, item) :: drop k ns).*1 ↔ a = m ∨ a ∈ ns.*1.
Proof.
  transitivity (a = m ∨ a ∈ (take k ns ++ drop k ns).*1);
    [|by rewrite take_drop].
  rewrite !fmap_app, fmap_cons, !elem_of_app, elem_of_cons. simpl. tauto.
Qed.

Section Ownership.

Variable malloc : heap → pointer.
Hypothesis malloc_fresh : ∀ h : heap, malloc h ≠ NULL ∧ h !! malloc h = None.

Lemma priqueue_offer_frame (q q' : priqueue_t) (h h' : heap)
    (ns : list cell) (item r : Z) :
  wf q h ns → priqueue_offer malloc q item h = Some (r, q', h') →
  ∀ b, b ≠ malloc h → b ∉ ns.*1 → h' !! b = h !! b.
Proof.
  intros ((Hr & Hc) & Hs & _) Hrun b Hbm Hbs.
  destruct (malloc_fresh h) as (Hnn & Hfresh).
  assert (Hnin : malloc h ∉ ns.*1).
  { intros Hin. apply (cells_in_heap _ _ _ _ Hc) in Hin as (_ & (? & ?)).
    congruence. }
  unfold priqueue_offer in Hrun.
  rewrite (store_content_ok _ _ _ (mknode NULL NULL)) in Hrun
    by (done || by rewrite lookup_insert_eq).
  cbn [mbind option_bind content next] in Hrun.
  rewrite insert_insert_eq in Hrun.
  rewrite (store_next_ok _ _ _ (mknode item NULL)) in Hrun
    by (done || by rewrite lookup_insert_eq).
  cbn [mbind option_bind content next] in Hrun.
  rewrite insert_insert_eq in Hrun.
  case_bool_decide as Hroot.
  - destruct (int_checked _); simpl in Hrun; [|done]. injection Hrun as _ _ <-.
    by rewrite lookup_insert_ne.
  - rewrite Hr in Hrun.
    rewrite (offer_loop_frame _ _ _ _ ns _ _ _ _ _
               (cells_insert_ne _ _ _ _ _ Hnin Hc) Hrun b); try done.
    + by rewrite lookup_insert_ne.
    + by left.
Qed.

(** How a call may change the chain without breaking [owns]: what is in
    neither chain is untouched, what joins the chain was unused, and what
    leaves it is freed. *)
Lemma owns_update (h0 h h' : heap) (ns ns' : list cell) :
  owns h0 h ns →
  (∀ b, b ∉ ns.*1 → b ∉ ns'.*1 → h' !! b = h !! b) →
  (∀ a, a ∈ ns'.*1 → a ∉ ns.*1 → h !! a = None) →
  (∀ a, a ∈ ns.*1 → a ∉ ns'.*1 → h' !! a = None) →
  owns h0 h' ns'.
Proof.
  intros (Hfresh & Hframe) Hout Hnew Hold. split.
  - intros a Ha. destruct (decide (a ∈ ns.*1)) as [Hin|Hnin]; [by apply Hfresh|].
    rewrite <- (Hframe a Hnin). by apply Hnew.
  - intros b Hb. destruct (decide (b ∈ ns.*1)) as [Hin|Hnin].
    + rewrite (Hold b Hin Hb). symmetry. by apply Hfresh.
    + rewrite (Hout b Hnin Hb). by apply Hframe.
Qed.

Lemma step_owns (h0 : heap) (o : op) (q q' : priqueue_t) (h h' : heap)
    (ns : list cell) :
  wf q h ns → owns h0 h ns → step malloc o q h = Some (q', h') →
  ∃ ns', wf q' h' ns' ∧ owns h0 h' ns' ∧ comparer q' = comparer q.
Proof.
  intros Hwf Hown Hstep. destruct o as [ptr| |ptr|index]; simpl in Hstep.
  - destruct (decide (size q < INT_MAX)) as [Hlt|Hfull].
    2:{ rewrite priqueue_offer_full in Hstep by lia. done. }
    destruct (priqueue_offer_spec malloc malloc_fresh q h ns ptr Hwf Hlt)
      as (q1 & h1 & Hrun & Hwf1 & Hcmp).
    rewrite Hrun in Hstep. simpl in Hstep. injection Hstep as <- <-.
    eexists. split; [done|]. split; [|done].
    assert (Hdom : ∀ a, a ∈ (take (insert_pos (comparer q) ptr ns.*2) ns
                             ++ (malloc h, ptr)
                             :: drop (insert_pos (comparer q) ptr ns.*2) ns).*1
                        ↔ a = malloc h ∨ a ∈ ns.*1).
    { intros a. apply elem_of_insert_at. }
    apply (owns_update h0 h h1 ns); [done| | |].
    + intros b Hb Hb'. apply (priqueue_offer_frame q q1 h h1 ns ptr _ Hwf Hrun);
        [|done]. intros ->. apply Hb'. apply Hdom. by left.
    + intros a Ha Ha'. apply Hdom in Ha as [->|?]; [|done].
      apply malloc_fresh.
    + intros a Ha Ha'. destruct Ha'. apply Hdom. by right.
  - destruct ns as [|[a c] ns].
    + rewrite priqueue_poll_empty in Hstep by (destruct Hwf as (_ & ? & _); done).
      simpl in Hstep. injection Hstep as <- <-. by exists [].
    + destruct (priqueue_poll_cons q h ns a c Hwf)
        as (q1 & h1 & Hrun & Hwf1 & Hcmp & ->).
      rewrite Hrun in Hstep. simpl in Hstep. injection Hstep as <- <-.
      exists ns. split; [done|]. split; [|done].
      apply (owns_update h0 h _ ((a, c) :: ns)); [done| | |].
      * intros b Hb _. rewrite fmap_cons in Hb.
        apply not_elem_of_cons in Hb as (Hne & _). by apply lookup_delete_ne.
      * intros b Hb Hb'. destruct Hb'. rewrite fmap_cons. by right.
      * intros b Hb Hb'. rewrite fmap_cons in Hb.
        apply elem_of_cons in Hb as [->|?]; [|done]. apply lookup_delete_eq.
  - destruct (priqueue_remove_spec q h ns ptr Hwf)
      as (q1 & h1 & Hrun & Hwf1 & _ & Hcmp).
    destruct (priqueue_remove_frame q q1 h h1 ns ptr _ Hwf Hrun)
      as (Hframe & Hfreed).
    rewrite Hrun in Hstep. simpl in Hstep. injection Hstep as <- <-.
    eexists. split; [done|]. split; [|done].
    apply (owns_update h0 h h1 ns); [done| | |].
    + intros b Hb _. by apply Hframe.
    + intros a Ha Ha'. destruct Ha'.
      apply list_elem_of_fmap in Ha as (n & -> & Hn).
      apply list_elem_of_fmap. exists n. split; [done|].
      by apply list_elem_of_filter in Hn as (_ & ?).
    + intros a Ha Ha'. apply list_elem_of_fmap in Ha as ([a' c] & -> & Hn).
      simpl in *. destruct (decide (c = ptr)) as [->|Hne]; [by apply Hfreed|].
      destruct Ha'. apply list_elem_of_fmap. exists (a', c). split; [done|].
      by apply list_elem_of_filter.
  - destruct (decide (index >= size q)) as [Hge|Hlt].
    { rewrite priqueue_remove_at_ge in Hstep by done.
      simpl in Hstep. injection Hstep as <- <-. by exists ns. }
    destruct (decide (0 < index)) as [Hpos|Hnpos].
    2:{ rewrite (priqueue_remove_at_nonpositive q h ns) in Hstep by (done || lia).
        done. }
    destruct (lookup_lt_is_Some_2 ns (Z.to_nat index)) as ([a c] & Hl).
    { destruct Hwf as (_ & ? & _). lia. }
    destruct (priqueue_remove_at_in_range q h ns index a c Hwf Hpos Hl)
      as (q1 & h1 & Hrun & Hwf1 & Hcmp).
    destruct (priqueue_remove_at_frame q q1 h h1 ns index _ Hwf Hrun)
      as (Hframe & Hfreed).
    rewrite Hrun in Hstep. simpl in Hstep. injection Hstep as <- <-.
    eexists. split; [done|]. split; [|done].
    pose proof (take_drop_middle _ _ _ Hl) as E.
    rewrite delete_take_drop.
    apply (owns_update h0 h h1 ns); [done| | |].
    + intros b Hb _. by apply Hframe.
    + intros b Hb Hb'. destruct Hb'. rewrite <- E.
      rewrite fmap_app, elem_of_app in Hb. rewrite fmap_app, fmap_cons.
      rewrite elem_of_app, elem_of_cons. tauto.
    + intros b Hb Hb'. rewrite <- E in Hb.
      rewrite fmap_app, fmap_cons, elem_of_app, elem_of_cons in Hb.
      rewrite fmap_app, elem_of_app in Hb'.
      destruct Hb as [?|[->|?]]; [tauto| |tauto].
      apply (Hfreed a c); [lia|done].
Qed.

Lemma steps_owns (h0 : heap) (os : list op) :
  ∀ (q q' : priqueue_t) (h h' : heap) (ns : list cell),
    wf q h ns → owns h0 h ns → steps malloc os q h = Some (q', h') →
    ∃ ns', wf q' h' ns' ∧ owns h0 h' ns' ∧ comparer q' = comparer q.
Proof.
  induction os as [|o os IH]; intros q q' h h' ns Hwf Hown Hrun; simpl in Hrun.
  - injection Hrun as <- <-. by exists ns.
  - destruct (step malloc o q h) as [[q1 h1]|] eqn:Hstep; simpl in Hrun; [|done].
    destruct (step_owns h0 o q q1 h h1 ns Hwf Hown Hstep)
      as (ns1 & Hwf1 & Hown1 & Hcmp1).
    destruct (IH q1 q' h1 h' ns1 Hwf1 Hown1 Hrun) as (ns' & ? & ? & Hcmp').
    exists ns'. split; [done|]. split; [done|]. congruence.
Qed.

Lemma owns_init (h0 : heap) : owns h0 h0 [].
Proof. split; [|done]. intros a Ha. by apply elem_of_nil in Ha. Qed.

Lemma wf_empty (q : priqueue_t) (h : heap) (ns : list cell) :
  wf q h ns → size q = 0 → ns = [] ∧ root q = NULL.
Proof.
  intros ((Hr & _) & Hs & _) Hz. destruct ns; [done|]. simpl in Hs. lia.
Qed.

Lemma filter_insert_ne (ns : list cell) (k : nat) (m x : pointer) :
  x ∉ ns.*2 → filter (λ n, n.2 ≠ x) (take k ns ++ (m, x) :: drop k ns) = ns.
Proof.
  intros Hnin.
  assert (Hid : ∀ l : list cell, l ⊆ ns → filter (λ n, n.2 ≠ x) l = l).
  { induction l as [|n l IH]; intros Hsub; [done|]. rewrite filter_cons.
    rewrite decide_True.
    - rewrite IH; [done|]. intros y Hy. apply Hsub. by right.
    - intros Heq. apply Hnin. apply list_elem_of_fmap. exists n.
      split; [done|]. apply Hsub. by left. }
  rewrite filter_app, filter_cons. simpl.
  rewrite decide_False by (intros H; by apply H).
  rewrite !Hid, take_drop; [done| |].
  - apply sublist_subseteq, sublist_drop.
  - apply sublist_subseteq, sublist_take.
Qed.

Lemma filter_insert_eq (ns : list cell) (k : nat) (m x : pointer) :
  x ∉ ns.*2 →
  filter (λ n, n.2 = x) (take k ns ++ (m, x) :: drop k ns) = [(m, x)].
Proof.
  intros Hnin.
  assert (Hnil : ∀ l : list cell, l ⊆ ns → filter (λ n, n.2 = x) l = []).
  { induction l as [|n l IH]; intros Hsub; [done|]. rewrite filter_cons.
    rewrite decide_False.
    - apply IH. intros y Hy. apply Hsub. by right.
    - intros Heq. apply Hnin. apply list_elem_of_fmap. exists n.
      split; [done|]. apply Hsub. by left. }
  rewrite filter_app, filter_cons. simpl. rewrite decide_True by done.
  rewrite !Hnil; [done| |].
  - apply sublist_subseteq, sublist_drop.
  - apply sublist_subseteq, sublist_take.
Qed.

(** X14.  Whatever calls a program makes on a queue it has initialised,
    as long as they return, the queue touches no memory but its own: the
    nodes of the chain lie at addresses that were unused when the queue
    was initialised, and every other address of the heap is as it was
    then (nothing foreign is written or freed, and every node that left
    the chain has been freed). *)
Theorem heap_ownership (cmp : pointer → pointer → Z) (os : list op)
    (q : priqueue_t) (h0 h : heap) :
  steps malloc os (priqueue_init cmp) h0 = Some (q, h) →
  ∃ ns, wf q h ns ∧
        (∀ a, a ∈ ns.*1 → h0 !! a = None) ∧
        (∀ b, b ∉ ns.*1 → h !! b = h0 !! b).
Proof.
  intros Hrun.
  destruct (steps_owns h0 os _ _ _ _ [] (wf_init cmp h0) (owns_init h0) Hrun)
    as (ns & Hwf & (Hfresh & Hframe) & _).
  by exists ns.
Qed.

(** X15.  No leak: when a sequence of calls on a freshly initialised queue
    ends with [size] 0, the heap is exactly the heap the queue started
    from and the header is again the one [priqueue_init] sets up. *)
Theorem no_leak_when_empty (cmp : pointer → pointer → Z) (os : list op)
    (q : priqueue_t) (h0 h : heap) :
  steps malloc os (priqueue_init cmp) h0 = Some (q, h) → size q = 0 →
  h = h0 ∧ q = priqueue_init cmp.
Proof.
  intros Hrun Hz.
  destruct (steps_owns h0 os _ _ _ _ [] (wf_init cmp h0) (owns_init h0) Hrun)
    as (ns & Hwf & (_ & Hframe) & Hcmp).
  destruct (wf_empty q h ns Hwf Hz) as (-> & Hroot).
  split.
  - apply map_eq. intros b. apply Hframe. apply not_elem_of_nil.
  - destruct q as [s r c]. simpl in *. by subst.
Qed.

(** X16.  [priqueue_destroy] after any sequence of calls that return on a
    freshly initialised queue gives back the heap the queue started from:
    it releases every node the queue still holds and nothing else. *)
Theorem destroy_restores_heap (cmp : pointer → pointer → Z) (os : list op)
    (q : priqueue_t) (h0 h : heap) :
  steps malloc os (priqueue_init cmp) h0 = Some (q, h) →
  priqueue_destroy q h = Some h0.
Proof.
  intros Hrun.
  destruct (steps_owns h0 os _ _ _ _ [] (wf_init cmp h0) (owns_init h0) Hrun)
    as (ns & Hwf & (Hfresh & Hframe) & _).
  destruct (priqueue_destroy_spec q h ns Hwf) as (h' & -> & Hfreed & Hout).
  f_equal. apply map_eq. intros b.
  destruct (decide (b ∈ ns.*1)) as [Hin|Hnin].
  - by rewrite (Hfreed b Hin), (Hfresh b Hin).
  - by rewrite (Hout b Hnin), (Hframe b Hnin).
Qed.

(** X6.  [priqueue_offer] raises [size] by 1, allocates the one node that
    holds the item, leaves every address outside the chain and other than
    that node as it was, and changes the payload of no node. *)
Theorem priqueue_offer_footprint (q : priqueue_t) (h : heap) (ns : list cell)
    (item : pointer) :
  wf q h ns → size q < INT_MAX →
  ∃ r q' h',
    priqueue_offer malloc q item h = Some (r, q', h') ∧
    size q' = size q + 1 ∧
    content <$> h' !! malloc h = Some item ∧
    (∀ b, b ≠ malloc h → b ∉ ns.*1 → h' !! b = h !! b) ∧
    (∀ b, b ≠ malloc h → content <$> h' !! b = content <$> h !! b).
Proof.
  intros Hwf Hlt.
  destruct (priqueue_offer_spec malloc malloc_fresh q h ns item Hwf Hlt)
    as (q' & h' & Hrun & Hwf' & _).
  pose proof (priqueue_offer_frame q q' h h' ns item _ Hwf Hrun) as Hframe.
  destruct Hwf as ((_ & Hc) & Hs & _). destruct Hwf' as ((_ & Hc') & Hs' & _).
  rewrite length_insert_at in Hs'.
  eexists _, q', h'. split; [done|]. split; [lia|]. split; [|split; [done|]].
  - destruct (cells_elem_of h' _ NULL (malloc h) item Hc') as (nx & ->); [|done].
    apply elem_of_app. right. by left.
  - intros b Hbm. destruct (decide (b ∈ ns.*1)) as [Hin|Hnin].
    + apply list_elem_of_fmap in Hin as ([b' c] & -> & Hin). simpl in *.
      destruct (cells_elem_of h ns NULL b' c Hc Hin) as (nx & ->).
      destruct (cells_elem_of h' _ NULL b' c Hc') as (nx' & ->); [|done].
      rewrite <- (take_drop (insert_pos (comparer q) item ns.*2) ns) in Hin.
      apply elem_of_app in Hin as [Hin|Hin]; apply elem_of_app;
        [by left|right; by right].
    + by rewrite Hframe.
Qed.

(** X7.  Offering an item the queue does not hold and then removing it is
    a round trip: [priqueue_remove] returns 1 and hands back exactly the
    header and the heap from before the offer. *)
Theorem offer_remove_round_trip (q : priqueue_t) (h : heap) (ns : list cell)
    (x : pointer) :
  wf q h ns → size q < INT_MAX → x ∉ ns.*2 →
  ∃ r q1 h1,
    priqueue_offer malloc q x h = Some (r, q1, h1) ∧
    priqueue_remove q1 x h1 = Some (1, q, h).
Proof.
  intros Hwf Hlt Hnin.
  destruct (priqueue_offer_spec malloc malloc_fresh q h ns x Hwf Hlt)
    as (q1 & h1 & Hrun & Hwf1 & Hcmp1).
  pose proof (priqueue_offer_frame q q1 h h1 ns x _ Hwf Hrun) as Hframe1.
  destruct (priqueue_remove_spec q1 h1 _ x Hwf1)
    as (q2 & h2 & Hrun2 & Hwf2 & _ & Hcmp2).
  destruct (priqueue_remove_frame q1 q2 h1 h2 _ x _ Hwf1 Hrun2)
    as (Hframe2 & Hfreed2).
  rewrite filter_insert_eq in Hrun2 by done.
  rewrite filter_insert_ne in Hwf2 by done.
  exists (offer_ret (insert_pos (comparer q) x ns.*2) (length ns)), q1, h1.
  split; [done|]. rewrite Hrun2. simpl. do 2 f_equal.
  - f_equal. destruct Hwf as ((Hr & _) & Hs & _), Hwf2 as ((Hr2 & _) & Hs2 & _).
    destruct q as [s r c], q2 as [s2 r2 c2]. simpl in *. subst. congruence.
  - apply map_eq. intros b.
    destruct Hwf as ((_ & Hc) & _), Hwf2 as ((_ & Hc2) & _).
    destruct (decide (b ∈ ns.*1)) as [Hin|Hout].
    { by apply (cells_agree h2 h ns NULL). }
    destruct (decide (b = malloc h)) as [->|Hbm].
    + rewrite (Hfreed2 (malloc h)); [symmetry; apply malloc_fresh|].
      apply elem_of_app. right. by left.
    + rewrite Hframe2, Hframe1; [done..|].
      rewrite elem_of_insert_at. tauto.
Qed.

End Ownership.

(** ** Reading and removing by position *)

Lemma StronglySorted_lookup_lt {A : Type} (R : relation A) (l : list A) :
  StronglySorted R l →
  ∀ (i j : nat) (a b : A),
    l !! i = Some a → l !! j = Some b → (i < j)%nat → R a b.
Proof.
  induction 1 as [|x l Hs IH Hall]; intros i j a b Hi Hj Hlt; [done|].
  destruct j as [|j]; [lia|]. simpl in Hj. destruct i as [|i]; simpl in Hi.
  - injection Hi as <-. rewrite Forall_forall in Hall. apply Hall.
    by apply list_elem_of_lookup_2 in Hj.
  - apply (IH i j); [done..|lia].
Qed.

Lemma priqueue_at_lookup (q : priqueue_t) (h : heap) (ns : list cell)
    (index : Z) :
  wf q h ns → 0 ≤ index < size q →
  priqueue_at q index h = ns.*2 !! Z.to_nat index.
Proof.
  intros Hwf Hi.
  destruct (lookup_lt_is_Some_2 ns (Z.to_nat index)) as ([a c] & Hl).
  { destruct Hwf as (_ & ? & _). lia. }
  rewrite (priqueue_at_in_range q h ns index a c Hwf) by (lia || done).
  by rewrite list_lookup_fmap, Hl.
Qed.

(** X1.  On a well-formed queue [priqueue_peek] returns what
    [priqueue_at] returns at index 0: the payload of the head, and [NULL]
    when the queue is empty. *)
Theorem priqueue_peek_is_at_0 (q : priqueue_t) (h : heap) (ns : list cell) :
  wf q h ns → priqueue_peek q h = priqueue_at q 0 h.
Proof.
  intros Hwf. rewrite (priqueue_peek_spec q h ns Hwf).
  destruct ns as [|[a c] ns]; simpl.
  - rewrite priqueue_at_ge; [done|]. destruct Hwf as (_ & -> & _). simpl. lia.
  - by rewrite (priqueue_at_in_range q h _ 0 a c Hwf).
Qed.

Lemma priqueue_peek_is_at_0_witness :
  priqueue_peek q_abac h_abac = priqueue_at q_abac 0 h_abac.
Proof.
  exact (priqueue_peek_is_at_0 q_abac h_abac _ wf_abac).
Defined.

(** X4.  [priqueue_poll] on a non-empty well-formed queue returns what
    [priqueue_peek] shows, [size] drops by 1, only the head node is freed,
    and every later entry moves up one index. *)
Theorem priqueue_poll_shifts (q : priqueue_t) (h : heap) (ns : list cell) :
  wf q h ns → 0 < size q →
  ∃ c q' h',
    priqueue_peek q h = Some c ∧
    priqueue_poll q h = Some (c, q', h') ∧
    size q' = size q - 1 ∧
    h' = delete (root q) h ∧
    ∀ j, 0 ≤ j < size q - 1 → priqueue_at q' j h' = priqueue_at q (j + 1) h.
Proof.
  intros Hwf Hpos. destruct ns as [|[a c] ns].
  { destruct Hwf as (_ & Hs & _). simpl in Hs. lia. }
  destruct (priqueue_poll_cons q h ns a c Hwf) as (q' & h' & Hrun & Hwf' & _ & ->).
  exists c, q', (delete a h).
  split; [by rewrite (priqueue_peek_spec q h _ Hwf)|]. split; [done|].
  pose proof Hwf as ((Hr & _) & Hs & _). pose proof Hwf' as (_ & Hs' & _).
  simpl in Hr, Hs. split; [lia|]. split; [by rewrite Hr|].
  intros j Hj.
  rewrite (priqueue_at_lookup q' _ ns j Hwf') by lia.
  rewrite (priqueue_at_lookup q h _ (j + 1) Hwf) by lia.
  replace (Z.to_nat (j + 1)) with (S (Z.to_nat j)) by lia. done.
Qed.

Lemma priqueue_poll_shifts_witness :
  ∃ c q' h',
    priqueue_peek q_abac h_abac = Some c ∧
    priqueue_poll q_abac h_abac = Some (c, q', h') ∧
    size q' = size q_abac - 1 ∧
    h' = delete (root q_abac) h_abac ∧
    ∀ j, 0 ≤ j < size q_abac - 1 →
         priqueue_at q' j h' = priqueue_at q_abac (j + 1) h_abac.
Proof.
  exact (priqueue_poll_shifts q_abac h_abac _ wf_abac eq_refl).
Defined.

(** X5.  Polling [size] times empties a well-formed queue without a fault
    and returns the payloads in index order: the [i]-th call returns what
    [priqueue_at] returned at index [i] beforehand. *)
Theorem poll_drains_in_order (q : priqueue_t) (h : heap) (ns : list cell) :
  wf q h ns →
  ∃ l q' h',
    poll_n (Z.to_nat (size q)) q h = Some (l, q', h') ∧
    size q' = 0 ∧ root q' = NULL ∧
    ∀ i, 0 ≤ i < size q → priqueue_at q i h = l !! Z.to_nat i.
Proof.
  intros Hwf. destruct (poll_n_spec ns q h Hwf) as (q' & h' & Hrun & Hwf').
  pose proof Hwf as (_ & Hs & _).
  exists ns.*2, q', h'. rewrite Hs, Nat2Z.id. split; [done|].
  destruct Hwf' as ((Hr' & _) & Hs' & _). split; [done|]. split; [done|].
  intros i Hi. apply (priqueue_at_lookup q h ns i Hwf). lia.
Qed.

Lemma poll_drains_in_order_witness :
  ∃ l q' h',
    poll_n (Z.to_nat (size q_abac)) q_abac h_abac = Some (l, q', h') ∧
    size q' = 0 ∧ root q' = NULL ∧
    ∀ i, 0 ≤ i < size q_abac → priqueue_at q_abac i h_abac = l !! Z.to_nat i.
Proof.
  exact (poll_drains_in_order q_abac h_abac _ wf_abac).
Defined.

(** X11.  [priqueue_remove_at] at an index from 1 to [size - 1] returns
    what [priqueue_at] returns there; afterwards [size] is one less, the
    entries before the index are where they were and every entry behind
    it has moved up one index. *)
Theorem priqueue_remove_at_shifts (q : priqueue_t) (h : heap)
    (ns : list cell) (index : Z) :
  wf q h ns → 0 < index < size q →
  ∃ c q' h',
    priqueue_remove_at q index h = Some (c, q', h') ∧
    priqueue_at q index h = Some c ∧
    size q' = size q - 1 ∧
    (∀ j, 0 ≤ j < index → priqueue_at q' j h' = priqueue_at q j h) ∧
    (∀ j, index ≤ j < size q - 1 →
          priqueue_at q' j h' = priqueue_at q (j + 1) h).
Proof.
  intros Hwf Hi. pose proof Hwf as (_ & Hs & _).
  destruct (lookup_lt_is_Some_2 ns (Z.to_nat index)) as ([a c] & Hl); [lia|].
  destruct (priqueue_remove_at_in_range q h ns index a c Hwf ltac:(lia) Hl)
    as (q' & h' & Hrun & Hwf' & _).
  pose proof Hwf' as (_ & Hs' & _). rewrite length_delete in Hs' by eauto.
  exists c, q', h'. split; [done|].
  split; [by apply (priqueue_at_in_range q h ns index a c Hwf); [lia|]|].
  split; [lia|]. split.
  - intros j Hj.
    rewrite (priqueue_at_lookup q' h' _ j Hwf') by lia.
    rewrite (priqueue_at_lookup q h ns j Hwf) by lia.
    rewrite list_fmap_delete. apply list_lookup_delete_lt. lia.
  - intros j Hj.
    rewrite (priqueue_at_lookup q' h' _ j Hwf') by lia.
    rewrite (priqueue_at_lookup q h ns (j + 1) Hwf) by lia.
    rewrite list_fmap_delete, list_lookup_delete_ge by lia.
    by replace (Z.to_nat (j + 1)) with (S (Z.to_nat j)) by lia.
Qed.

Lemma priqueue_remove_at_shifts_witness :
  ∃ c q' h',
    priqueue_remove_at q_abac 2 h_abac = Some (c, q', h') ∧
    priqueue_at q_abac 2 h_abac = Some c ∧
    size q' = size q_abac - 1 ∧
    (∀ j, 0 ≤ j < 2 → priqueue_at q' j h' = priqueue_at q_abac j h_abac) ∧
    (∀ j, 2 ≤ j < size q_abac - 1 →
          priqueue_at q' j h' = priqueue_at q_abac (j + 1) h_abac).
Proof.
  apply (priqueue_remove_at_shifts q_abac h_abac _ 2 wf_abac).
  split; reflexivity.
Defined.

(** ** Removing by payload *)

Lemma priqueue_remove_absent_run (q : priqueue_t) (h : heap)
    (ns : list cell) (ptr : pointer) :
  wf q h ns → ptr ∉ ns.*2 → priqueue_remove q ptr h = Some (0, q, h).
Proof.
  intros ((Hr & Hc) & Hs & Hmax) Hnin. unfold priqueue_remove.
  rewrite Hs, Nat2Z.id, Hr, (remove_loop_absent ptr ns q h NULL 0 Hc Hnin).
  rewrite int_checked_ok by (unfold INT_MIN, INT_MAX in *; lia). simpl.
  by rewrite set_size_id by lia.
Qed.

Lemma not_elem_of_filter_snd (ns : list cell) (ptr : pointer) :
  ptr ∉ (filter (λ n, n.2 ≠ ptr) ns).*2.
Proof.
  intros Hin. apply list_elem_of_fmap in Hin as (n & -> & Hn).
  by apply list_elem_of_filter in Hn as (Hne & _).
Qed.

(** X8.  [priqueue_remove] frees exactly the nodes that hold [ptr]: each
    of them is gone from the heap, every other node of the chain is still
    allocated with its payload, and no address outside the chain is
    touched. *)
Theorem priqueue_remove_frees_exactly (q : priqueue_t) (h : heap)
    (ns : list cell) (ptr : pointer) :
  wf q h ns →
  ∃ r q' h',
    priqueue_remove q ptr h = Some (r, q', h') ∧
    (∀ a, (a, ptr) ∈ ns → h' !! a = None) ∧
    (∀ a c, (a, c) ∈ ns → c ≠ ptr → content <$> h' !! a = Some c) ∧
    (∀ b, b ∉ ns.*1 → h' !! b = h !! b).
Proof.
  intros Hwf.
  destruct (priqueue_remove_spec q h ns ptr Hwf)
    as (q' & h' & Hrun & ((_ & Hc') & _) & _).
  destruct (priqueue_remove_frame q q' h h' ns ptr _ Hwf Hrun)
    as (Hframe & Hfreed).
  eexists _, q', h'. split; [done|]. split; [done|]. split; [|done].
  intros a c Hin Hne.
  destruct (cells_elem_of h' _ NULL a c Hc') as (nx & ->); [|done].
  by apply list_elem_of_filter.
Qed.

Lemma priqueue_remove_frees_exactly_witness :
  ∃ r q' h',
    priqueue_remove q_abac 1 h_abac = Some (r, q', h') ∧
    (∀ a, (a, 1) ∈ [(10, 1); (20, 2); (30, 1); (40, 3)] → h' !! a = None) ∧
    (∀ a c, (a, c) ∈ [(10, 1); (20, 2); (30, 1); (40, 3)] → c ≠ 1 →
            content <$> h' !! a = Some c) ∧
    (∀ b, b ∉ [(10, 1); (20, 2); (30, 1); (40, 3)].*1 → h' !! b = h_abac !! b).
Proof.
  exact (priqueue_remove_frees_exactly q_abac h_abac _ 1 wf_abac).
Defined.

(** X9.  [priqueue_remove] is idempotent: a second call with the same
    pointer, right after the first, returns 0 and changes neither the
    header nor the heap. *)
Theorem priqueue_remove_twice (q : priqueue_t) (h : heap) (ns : list cell)
    (ptr : pointer) :
  wf q h ns →
  ∃ r q' h',
    priqueue_remove q ptr h = Some (r, q', h') ∧
    priqueue_remove q' ptr h' = Some (0, q', h').
Proof.
  intros Hwf.
  destruct (priqueue_remove_spec q h ns ptr Hwf) as (q' & h' & Hrun & Hwf' & _).
  eexists _, q', h'. split; [done|].
  apply (priqueue_remove_absent_run q' h' _ ptr Hwf').
  apply not_elem_of_filter_snd.
Qed.

Lemma priqueue_remove_twice_witness :
  ∃ r q' h',
    priqueue_remove q_abac 1 h_abac = Some (r, q', h') ∧
    priqueue_remove q' 1 h' = Some (0, q', h').
Proof.
  exact (priqueue_remove_twice q_abac h_abac _ 1 wf_abac).
Defined.

(** X10.  After [priqueue_remove] of [ptr] the queue no longer holds it:
    [priqueue_at] returns [ptr] at no index from 0 below the new [size],
    and returns the payloads that were not removed in their old order. *)
Theorem priqueue_remove_then_absent (q : priqueue_t) (h : heap)
    (ns : list cell) (ptr : pointer) :
  wf q h ns →
  ∃ r q' h',
    priqueue_remove q ptr h = Some (r, q', h') ∧
    ∀ i, 0 ≤ i < size q' →
         priqueue_at q' i h' ≠ Some ptr ∧
         priqueue_at q' i h' = filter (λ c, c ≠ ptr) ns.*2 !! Z.to_nat i.
Proof.
  intros Hwf.
  destruct (priqueue_remove_spec q h ns ptr Hwf) as (q' & h' & Hrun & Hwf' & _).
  eexists _, q', h'. split; [done|]. intros i Hi.
  rewrite (priqueue_at_lookup q' h' _ i Hwf' Hi), fmap_snd_filter.
  split; [|done]. intros Hl. apply list_elem_of_lookup_2 in Hl.
  by apply list_elem_of_filter in Hl as (Hne & _).
Qed.

Lemma priqueue_remove_then_absent_witness :
  ∃ r q' h',
    priqueue_remove q_abac 1 h_abac = Some (r, q', h') ∧
    ∀ i, 0 ≤ i < size q' →
         priqueue_at q' i h' ≠ Some 1 ∧
         priqueue_at q' i h'
         = filter (λ c, c ≠ 1) [(10, 1); (20, 2); (30, 1); (40, 3)].*2
             !! Z.to_nat i.
Proof.
  exact (priqueue_remove_then_absent q_abac h_abac _ 1 wf_abac).
Defined.

(** ** Order seen through [priqueue_peek] and [priqueue_at] *)

Section Ascending.

Variable malloc : heap → pointer.
Hypothesis malloc_fresh : ∀ h : heap, malloc h ≠ NULL ∧ h !! malloc h = None.

Lemma reachable_sorted_lookup (cmp : pointer → pointer → Z) (q : priqueue_t)
    (h : heap) :
  reachable malloc cmp q h → consistent cmp →
  ∃ ns, wf q h ns ∧
        ∀ (i j : nat) (a b : Z),
          ns.*2 !! i = Some a → ns.*2 !! j = Some b → (i ≤ j)%nat →
          cmp a b ≤ 0.
Proof.
  intros Hreach Hcons.
  destruct (reachable_wf malloc malloc_fresh cmp q h Hreach) as (ns & Hwf & _ & Hs).
  exists ns. split; [done|]. intros i j a b Hi Hj Hle.
  destruct (decide (i = j)) as [->|Hne].
  - rewrite Hi in Hj. injection Hj as <-.
    destruct (decide (cmp a a > 0)) as [Hgt|?]; [|lia].
    by apply (cmp_gt_le cmp Hcons).
  - apply (StronglySorted_lookup_lt (cle cmp) ns.*2) with i j; [|done..|lia].
    apply Sorted_StronglySorted; [by apply cle_transitive|by apply Hs].
Qed.

(** X3.  With a consistent comparer, in every state reached from
    [priqueue_init] the indices of [priqueue_at] run in ascending order:
    the payload at an index may precede the payload at any later index. *)
Theorem priqueue_at_ascending (cmp : pointer → pointer → Z) (q : priqueue_t)
    (h : heap) :
  reachable malloc cmp q h → consistent cmp →
  ∀ i j a b,
    0 ≤ i → i ≤ j → j < size q →
    priqueue_at q i h = Some a → priqueue_at q j h = Some b → cmp a b ≤ 0.
Proof.
  intros Hreach Hcons i j a b Hi Hij Hj Ha Hb.
  destruct (reachable_sorted_lookup cmp q h Hreach Hcons) as (ns & Hwf & Hord).
  rewrite (priqueue_at_lookup q h ns i Hwf) in Ha by lia.
  rewrite (priqueue_at_lookup q h ns j Hwf) in Hb by lia.
  apply (Hord (Z.to_nat i) (Z.to_nat j)); [done..|lia].
Qed.

(** X2.  With a consistent comparer, in every state reached from
    [priqueue_init] [priqueue_peek] returns a least entry: what it returns
    may precede every payload the queue holds. *)
Theorem priqueue_peek_least (cmp : pointer → pointer → Z) (q : priqueue_t)
    (h : heap) :
  reachable malloc cmp q h → consistent cmp →
  ∀ c j e,
    priqueue_peek q h = Some c → 0 ≤ j < size q →
    priqueue_at q j h = Some e → cmp c e ≤ 0.
Proof.
  intros Hreach Hcons c j e Hpeek Hj He.
  destruct (reachable_sorted_lookup cmp q h Hreach Hcons) as (ns & Hwf & Hord).
  rewrite (priqueue_peek_spec q h ns Hwf) in Hpeek.
  rewrite (priqueue_at_lookup q h ns j Hwf) in He by lia.
  destruct ns as [|[a0 c0] ns].
  { destruct Hwf as (_ & Hs & _). simpl in Hs. lia. }
  simpl in Hpeek. injection Hpeek as <-.
  apply (Hord O (Z.to_nat j)); [done..|lia].
Qed.

End Ascending.

Lemma steps_reachable (malloc : heap → pointer) (cmp : pointer → pointer → Z)
    (os : list op) :
  ∀ (q q' : priqueue_t) (h h' : heap),
    reachable malloc cmp q h → steps malloc os q h = Some (q', h') →
    reachable malloc cmp q' h'.
Proof.
  induction os as [|o os IH]; intros q q' h h' Hreach Hrun; simpl in Hrun.
  - by injection Hrun as <- <-.
  - destruct (step malloc o q h) as [[q1 h1]|] eqn:Hstep; simpl in Hrun; [|done].
    apply (IH q1 q' h1 h'); [|done]. by apply (reachable_step _ _ o q q1 h h1).
Qed.

(** The state after offering 5, 3, 8 and 3 to a fresh queue. *)
Lemma reachable_5383 :
  reachable bump_alloc cmp_int (mkqueue 4 2 cmp_int)
    (<[1 := mknode 5 3]> (<[2 := mknode 3 4]>
       (<[3 := mknode 8 NULL]> (<[4 := mknode 3 1]> ∅)))).
Proof.
  apply (steps_reachable bump_alloc cmp_int [Offer 5; Offer 3; Offer 8; Offer 3]
           (priqueue_init cmp_int) _ ∅ _ (reachable_init _ _ ∅)).
  vm_compute. reflexivity.
Qed.

Lemma priqueue_at_ascending_witness :
  priqueue_at (mkqueue 4 2 cmp_int) 1
    (<[1 := mknode 5 3]> (<[2 := mknode 3 4]>
       (<[3 := mknode 8 NULL]> (<[4 := mknode 3 1]> ∅)))) = Some 3 ∧
  priqueue_at (mkqueue 4 2 cmp_int) 3
    (<[1 := mknode 5 3]> (<[2 := mknode 3 4]>
       (<[3 := mknode 8 NULL]> (<[4 := mknode 3 1]> ∅)))) = Some 8 ∧
  cmp_int 3 8 ≤ 0.
Proof.
  split; [vm_compute; reflexivity|]. split; [vm_compute; reflexivity|].
  apply (priqueue_at_ascending bump_alloc bump_alloc_fresh cmp_int _ _
           reachable_5383 cmp_int_consistent 1 3 3 8);
    first [simpl; lia | vm_compute; reflexivity].
Defined.

Lemma priqueue_peek_least_witness :
  priqueue_peek (mkqueue 4 2 cmp_int)
    (<[1 := mknode 5 3]> (<[2 := mknode 3 4]>
       (<[3 := mknode 8 NULL]> (<[4 := mknode 3 1]> ∅)))) = Some 3 ∧
  cmp_int 3 5 ≤ 0.
Proof.
  split; [vm_compute; reflexivity|].
  apply (priqueue_peek_least bump_alloc bump_alloc_fresh cmp_int _ _
           reachable_5383 cmp_int_consistent 3 2 5);
    first [simpl; lia | vm_compute; reflexivity].
Defined.

Lemma heap_ownership_witness :
  ∃ q h ns,
    steps bump_alloc [Offer 5; Offer 3; Poll; Offer 8; Remove 5]
      (priqueue_init cmp_int) h_abac = Some (q, h) ∧
    wf q h ns ∧
    (∀ a, a ∈ ns.*1 → h_abac !! a = None) ∧
    (∀ b, b ∉ ns.*1 → h !! b = h_abac !! b).
Proof.
  assert (Hrun : steps bump_alloc [Offer 5; Offer 3; Poll; Offer 8; Remove 5]
                   (priqueue_init cmp_int) h_abac
                 = Some (mkqueue 1 42 cmp_int, <[42 := mknode 8 NULL]> h_abac))
    by (vm_compute; reflexivity).
  destruct (heap_ownership bump_alloc bump_alloc_fresh cmp_int _ _ _ _ Hrun)
    as (ns & H).
  eexists _, _, ns. split; [exact Hrun|exact H].
Defined.

Lemma no_leak_when_empty_witness :
  ∃ q h,
    steps bump_alloc [Offer 5; Offer 3; Poll; Offer 8; Remove 5; Poll]
      (priqueue_init cmp_int) h_abac = Some (q, h) ∧
    size q = 0 ∧ h = h_abac ∧ q = priqueue_init cmp_int.
Proof.
  eexists _, _. split; [vm_compute; reflexivity|]. split; [reflexivity|].
  apply (no_leak_when_empty bump_alloc bump_alloc_fresh cmp_int
           [Offer 5; Offer 3; Poll; Offer 8; Remove 5; Poll]);
    vm_compute; reflexivity.
Defined.

Lemma destroy_restores_heap_witness :
  ∃ q h,
    steps bump_alloc [Offer 5; Offer 3; Poll; Offer 8]
      (priqueue_init cmp_int) h_abac = Some (q, h) ∧
    priqueue_destroy q h = Some h_abac.
Proof.
  eexists _, _. split; [vm_compute; reflexivity|].
  apply (destroy_restores_heap bump_alloc bump_alloc_fresh cmp_int
           [Offer 5; Offer 3; Poll; Offer 8]).
  vm_compute. reflexivity.
Defined.

Lemma priqueue_offer_footprint_witness :
  ∃ r q' h',
    priqueue_offer bump_alloc q_123 2 h_123 = Some (r, q', h') ∧
    size q' = size q_123 + 1 ∧
    content <$> h' !! bump_alloc h_123 = Some 2 ∧
    (∀ b, b ≠ bump_alloc h_123 → b ∉ [(10, 1); (20, 2); (30, 3)].*1 →
          h' !! b = h_123 !! b) ∧
    (∀ b, b ≠ bump_alloc h_123 → content <$> h' !! b = content <$> h_123 !! b).
Proof.
  exact (priqueue_offer_footprint bump_alloc bump_alloc_fresh q_123 h_123
           [(10, 1); (20, 2); (30, 3)] 2 wf_123 eq_refl).
Defined.

Lemma offer_remove_round_trip_witness :
  ∃ r q1 h1,
    priqueue_offer bump_alloc q_123 7 h_123 = Some (r, q1, h1) ∧
    priqueue_remove q1 7 h1 = Some (1, q_123, h_123).
Proof.
  apply (offer_remove_round_trip bump_alloc bump_alloc_fresh q_123 h_123
           [(10, 1); (20, 2); (30, 3)] 7 wf_123 eq_refl).
  vm_compute. intros H. repeat (apply elem_of_cons in H as [H|H]; [discriminate|]).
  by apply elem_of_nil in H.
Defined.

Lemma priqueue_offer_index_witness :
  ∃ ret q' h',
    priqueue_offer bump_alloc q_123 2 h_123 = Some (ret, q', h') ∧
    priqueue_at q' 2 h' = Some 2 ∧ ret = 2.
Proof.
  destruct (priqueue_offer_index bump_alloc bump_alloc_fresh q_123 h_123
              [(10, 1); (20, 2); (30, 3)] 2 wf_123 eq_refl)
    as (ret & q' & h' & Hrun & Hat & Hret & _).
  exists ret, q', h'. split; [exact Hrun|]. split; [exact Hat|].
  apply Hret. right. vm_compute. lia.
Defined.
